(** * ABS cash-flow simulation: amortization, tranches and IRR

    A shallow embedding of [ABS.PY].  The script works on binary64
    numbers.  Sections 1 to 6 take every number as an exact rational
    ([Q], compared with [==]): the theorems are statements about the
    arithmetic the script approximates, "equal" means equal as
    rationals, and no rounding takes place.  Section 7 repeats the
    month-by-month loop on binary64 numbers, to replay single loans bit
    for bit.

    A quotient by zero is 0 in [Q] and an infinity or not-a-number in
    the script; no theorem below divides by zero.  The integers
    [term] and [num_loans] are [nat]s; the two libraries the script
    calls for random numbers and for the rate of return are variables
    of the sections that use them. *)

From Stdlib Require Import QArith Qpower Qabs ZArith List Lia Lqa Bool Floats.
Import ListNotations.

Local Open Scope Q_scope.

(** ** Numbers *)

(** [x < y] on the script's numbers, as a test that computes. *)
Definition Qltb (x y : Q) : bool :=
  (Qnum x * QDen y <? Qnum y * QDen x)%Z.

(** [sum()] of a series. *)
Fixpoint Qsum (l : list Q) : Q :=
  match l with
  | [] => 0
  | x :: l' => x + Qsum l'
  end.

(** ** 1. Monthly payment (ABS.PY, lines 19-21) *)

Definition monthly_payment (principal annual_rate : Q) (months : nat) : Q :=
  let r := annual_rate / 12 in
  principal * r / (1 - Qpower (1 + r) (- Z.of_nat months)).

(** ** 2. The month-by-month loop (ABS.PY, lines 37-46)

    One turn of the inner loop, started with the loop variables
    [balance] and [pay].  The row keeps every value the turn computes:
    the two components, whether the adjustment branch was taken, the
    entry written to [loan_cashflows[i, m]], and the two variables as
    the turn leaves them. *)

Record month_row : Type := mk_row {
  balance_before : Q;
  pay_before : Q;
  interest_payment : Q;
  principal_payment : Q;
  adjusted : bool;
  cashflow : Q;
  balance_after : Q;
  pay_after : Q
}.

Definition month (r balance pay : Q) : month_row :=
  let interest_payment := balance * r in
  let principal_payment := pay - interest_payment in
  if Qltb balance principal_payment then
    let principal_payment' := balance in
    let pay' := principal_payment' + interest_payment in
    mk_row balance pay interest_payment principal_payment' true
           pay' (balance - principal_payment') pay'
  else
    mk_row balance pay interest_payment principal_payment false
           pay (balance - principal_payment) pay.

(** [for m in range(term)]: the rows of [term] turns, each started with
    the variables the turn before left. *)
Fixpoint amortize (r : Q) (term : nat) (balance pay : Q) : list month_row :=
  match term with
  | O => []
  | S term' =>
      let row := month r balance pay in
      row :: amortize r term' (balance_after row) (pay_after row)
  end.

(** The loop variables when the loop is left. *)
Fixpoint final_state (r : Q) (term : nat) (balance pay : Q) : Q * Q :=
  match term with
  | O => (balance, pay)
  | S term' =>
      let row := month r balance pay in
      final_state r term' (balance_after row) (pay_after row)
  end.

(** The body of [for i in range(num_loans)] for one loan: the variables
    are set from the loan and its scheduled payment, then the inner loop
    runs. *)
Definition loan_rows (principal annual_rate : Q) (term : nat) : list month_row :=
  amortize (annual_rate / 12) term principal
           (monthly_payment principal annual_rate term).

Definition loan_final_balance (principal annual_rate : Q) (term : nat) : Q :=
  fst (final_state (annual_rate / 12) term principal
                   (monthly_payment principal annual_rate term)).

(** Row [i] of [loan_cashflows]. *)
Definition loan_schedule (principal annual_rate : Q) (term : nat) : list Q :=
  map cashflow (loan_rows principal annual_rate term).

(** ** 3. The portfolio (ABS.PY, lines 23-51)

    The script's inputs are the two arrays drawn at random and the two
    constants [num_loans] and [term]; here they are the variables of the
    section.  [a[i]] is [nth i a 0]: both arrays are drawn with
    [num_loans] entries, and the loops only read [i < num_loans]. *)

(** Entry-wise sum of two series. *)
Fixpoint vadd (a b : list Q) : list Q :=
  match a, b with
  | x :: a', y :: b' => (x + y) :: vadd a' b'
  | _, _ => []
  end.

(** [rows.sum(axis=0)] for an array of [width] columns: the rows are
    added, entry by entry, to a row of zeros. *)
Definition sum_axis0 (width : nat) (rows : list (list Q)) : list Q :=
  fold_left vadd rows (repeat 0 width).

Section Portfolio.

Variables num_loans term : nat.
Variables loan_amounts interest_rates : list Q.

Definition payments : list Q :=
  map (fun i => monthly_payment (nth i loan_amounts 0)
                                (nth i interest_rates 0) term)
      (seq 0 num_loans).

Definition loan_cashflows : list (list Q) :=
  map (fun i =>
         let balance := nth i loan_amounts 0 in
         let r := nth i interest_rates 0 / 12 in
         let pay := nth i payments 0 in
         map cashflow (amortize r term balance pay))
      (seq 0 num_loans).

Definition portfolio_cashflow : list Q := sum_axis0 term loan_cashflows.

Definition total_cash : Q := Qsum portfolio_cashflow.

Definition total_principal : Q := Qsum loan_amounts.

End Portfolio.

(** ** 4. Tranches (ABS.PY, lines 57-72) *)

Definition senior_pct : Q := 0.70.
Definition mezzanine_pct : Q := 0.20.
Definition equity_pct : Q := 0.10.

Section Tranches.

Variable term : nat.
Variables total_principal total_cash : Q.

Definition senior_investment : Q := total_principal * senior_pct.
Definition mezzanine_investment : Q := total_principal * mezzanine_pct.
Definition equity_investment : Q := total_principal * equity_pct.

Definition senior_total_cash : Q := total_cash * senior_pct.
Definition mezzanine_total_cash : Q := total_cash * mezzanine_pct.
Definition equity_total_cash : Q := total_cash * equity_pct.

(** [np.full(term, x / term)]. *)
Definition senior_cf : list Q :=
  repeat (senior_total_cash / inject_Z (Z.of_nat term)) term.
Definition mezzanine_cf : list Q :=
  repeat (mezzanine_total_cash / inject_Z (Z.of_nat term)) term.
Definition equity_cf : list Q :=
  repeat (equity_total_cash / inject_Z (Z.of_nat term)) term.

End Tranches.

(** ** 5. IRR (ABS.PY, lines 77-84)

    [npf.irr] belongs to the numpy_financial library and is a variable
    here.  It answers with a number or with not-a-number. *)

Inductive irr_result : Type :=
| NaN
| Num (rate : Q).

Definition isnan (v : irr_result) : bool :=
  match v with
  | NaN => true
  | Num _ => false
  end.

Section IRR.

Variable irr : list Q -> irr_result.

Definition calculate_irr (cf_series : list Q) (initial_investment : Q)
  : irr_result :=
  let irr_value := irr ((- initial_investment) :: cf_series) in
  if isnan irr_value then Num 0 else irr_value.

End IRR.

(** Modelled from the spec: the net present value of [values] at
    [rate], which [npf.irr] solves for inside the library, is the sum of
    [values[t] / (1 + rate)^t]; [npv_from] starts at the exponent [t]. *)
Fixpoint npv_from (rate : Q) (t : nat) (values : list Q) : Q :=
  match values with
  | [] => 0
  | v :: rest => v / (1 + rate) ^ Z.of_nat t + npv_from rate (S t) rest
  end.

Definition npv (rate : Q) (values : list Q) : Q := npv_from rate 0 values.

(** Modelled from the spec: what [npf.irr] promises on [values].  An
    answer that is a number is a rate above -1 at which the net present
    value is zero, and not-a-number is answered only when there is no
    such rate. *)
Definition irr_contract (irr : list Q -> irr_result) (values : list Q) : Prop :=
  (forall rate, irr values = Num rate -> -1 < rate /\ npv rate values == 0) /\
  (irr values = NaN -> forall rate, -1 < rate -> ~ npv rate values == 0).

(** A root-finder for two flows of opposite signs, where the rate is
    [- c1 / c0 - 1]; it gives up on anything else. *)
Definition irr_one_period (values : list Q) : irr_result :=
  match values with
  | [c0; c1] =>
      if (Qltb c0 0 && Qltb 0 c1) || (Qltb 0 c0 && Qltb c1 0)
      then Num (Qred (- c1 / c0 - 1))
      else NaN
  | _ => NaN
  end.

(** ** 6. The whole script (ABS.PY, lines 6-90)

    The generator behind [np.random] is a variable: a type of states,
    the state that [np.random.seed(n)] installs, and the step that
    draws one number of [[0, 1)] and moves the state on.  The script is
    a function of the state the generator is in when the script starts. *)

Record report : Type := mk_report {
  drawn_loan_amounts : list Q;
  drawn_interest_rates : list Q;
  report_portfolio_cashflow : list Q;
  report_total_principal : Q;
  report_total_cash : Q;
  report_senior : Q * Q * irr_result;
  report_mezzanine : Q * Q * irr_result;
  report_equity : Q * Q * irr_result
}.

Section Script.

Variable rng_state : Type.
Variable seed : Z -> rng_state.
Variable random_sample : rng_state -> Q * rng_state.
Variable irr : list Q -> irr_result.

(** [np.random.uniform(low, high, size)]: [size] draws, each mapped to
    [low + (high - low) * u]. *)
Fixpoint uniform (low high : Q) (size : nat) (st : rng_state)
  : list Q * rng_state :=
  match size with
  | O => ([], st)
  | S size' =>
      let (u, st1) := random_sample st in
      let (rest, st2) := uniform low high size' st1 in
      ((low + (high - low) * u) :: rest, st2)
  end.

Definition num_loans : nat := 100.
Definition term : nat := 36.

Definition script (st0 : rng_state) : report * rng_state :=
  let st1 := seed 42 in
  let (loan_amounts, st2) := uniform 10000 50000 num_loans st1 in
  let (interest_rates, st3) := uniform 0.05 0.15 num_loans st2 in
  let portfolio := portfolio_cashflow num_loans term loan_amounts interest_rates in
  let cash := total_cash num_loans term loan_amounts interest_rates in
  let principal := total_principal loan_amounts in
  let irr_senior :=
    calculate_irr irr (senior_cf term cash) (senior_investment principal) in
  let irr_mezzanine :=
    calculate_irr irr (mezzanine_cf term cash) (mezzanine_investment principal) in
  let irr_equity :=
    calculate_irr irr (equity_cf term cash) (equity_investment principal) in
  (mk_report loan_amounts interest_rates portfolio principal cash
             (senior_investment principal, senior_total_cash cash, irr_senior)
             (mezzanine_investment principal, mezzanine_total_cash cash,
              irr_mezzanine)
             (equity_investment principal, equity_total_cash cash, irr_equity),
   st3).

End Script.

(** A small generator to run the script with: a linear congruential
    step on integers below [2^31], read as a fraction of [2^31]. *)
Definition lcg_seed (n : Z) : Z := n mod 2147483648.

Definition lcg_sample (st : Z) : Q * Z :=
  let st' := ((1103515245 * st + 12345) mod 2147483648)%Z in
  (st' # 2147483648, st').

(** ** 7. The loop on binary64 numbers

    The same loop on the numbers the script runs on, for replaying a
    loan bit for bit.  Sums, differences, products, quotients and
    comparisons of binary64 numbers are those of the processor; the
    power [(1 + r) ** (-months)] comes from the C library, so
    [monthly_payment] takes its value as the argument [power]. *)

Module Binary64.

Local Open Scope float_scope.

Record row : Type := mk_row {
  adjusted : bool;
  cashflow : float;
  balance_after : float;
  pay_after : float
}.

Definition monthly_payment (power principal annual_rate : float) : float :=
  let r := annual_rate / 12 in
  principal * r / (1 - power).

Definition month (r balance pay : float) : row :=
  let interest_payment := balance * r in
  let principal_payment := pay - interest_payment in
  if balance <? principal_payment then
    let principal_payment' := balance in
    let pay' := principal_payment' + interest_payment in
    mk_row true pay' (balance - principal_payment') pay'
  else
    mk_row false pay (balance - principal_payment) pay.

Fixpoint amortize (r : float) (term : nat) (balance pay : float) : list row :=
  match term with
  | O => []
  | S term' =>
      let row := month r balance pay in
      row :: amortize r term' (balance_after row) (pay_after row)
  end.

(** The rational a finite binary64 number stands for. *)
Definition to_Q (f : float) : Q :=
  match Prim2SF f with
  | S754_finite s m e =>
      let v := (inject_Z (Z.pos m) * Qpower 2 e)%Q in
      if s then (- v)%Q else v
  | _ => 0%Q
  end.

(** The annual rate 0.12 as the script reads it, and the binary64
    number nearest to [(1 + 0.12 / 12) ** (-12)], about
    0.8874492252651536. *)
Definition rate_12pct : float := 0x1.eb851eb851eb8p-4.
Definition power_12 : float := 0x1.c65fbeaebfadap-1.

(** The loan of 10,000 at 12% over 12 months, with the power [power]. *)
Definition loan_12 (power : float) : list row :=
  amortize (rate_12pct / 12) 12 10000
           (monthly_payment power 10000 rate_12pct).

(** The annual rate 0.06 as the script reads it, the binary64 number
    nearest to [(1 + 0.06 / 12) ** (-2)], about 0.9900745031063589, and
    the loan of 2,400 at 6% over 2 months with the power [power]. *)
Definition rate_6pct : float := 0x1.eb851eb851eb8p-5.
Definition power_2 : float := 0x1.faeb0b96e3f96p-1.

Definition loan_2 (power : float) : list row :=
  amortize (rate_6pct / 12) 2 2400
           (monthly_payment power 2400 rate_6pct).

End Binary64.

(** ** 8. Notions used to state the properties *)

(** The discount factor [(1 + r) ** (-j)]. *)
Definition discount (r : Q) (j : nat) : Q := Qpower (1 + r) (- Z.of_nat j).

(** [on_schedule r pay j balance]: [pay] is the level payment that
    repays [balance] in [j] more months. *)
Definition on_schedule (r pay : Q) (j : nat) (balance : Q) : Prop :=
  balance * r == pay * (1 - discount r j).

(** [leaving r pay j balance left]: [j] more payments of [pay] on
    [balance] leave [left]; the balance is worth today the payments and
    what is left. *)
Definition leaving (r pay : Q) (j : nat) (balance left : Q) : Prop :=
  balance * r == pay * (1 - discount r j) + left * r * discount r j.

(** Each row starts with the variables the row before left; the first
    starts with [balance] and [pay]. *)
Fixpoint chained (balance pay : Q) (rows : list month_row) : Prop :=
  match rows with
  | [] => True
  | row :: rest =>
      balance_before row = balance /\ pay_before row = pay /\
      chained (balance_after row) (pay_after row) rest
  end.

(** The annuity formula as the specification writes it, with the
    negative power read as the inverse of the power. *)
Definition annuity_formula (principal annual_rate : Q) (months : nat) : Q :=
  let r := annual_rate / 12 in
  principal * r / (1 - / (1 + r) ^ Z.of_nat months).

(** Value today, at monthly rate [r], of [months] payments of [P], one at
    the end of each month. *)
Fixpoint present_value (r P : Q) (months : nat) : Q :=
  match months with
  | O => 0
  | S m => present_value r P m + P * discount r (S m)
  end.

(** A loan of 100 at 10% a month paid 80 a month: the second month is
    adjusted to 33, and the two months left record 0. *)
Definition overpaid_first : month_row := month (1 # 10) 100 80.

Definition overpaid_second : month_row :=
  month (1 # 10) (balance_after overpaid_first) (pay_after overpaid_first).

Definition overpaid_rest : list month_row :=
  amortize (1 # 10) 2 (balance_after overpaid_second) (pay_after overpaid_second).

(** The signed series of a tranche holding the fraction [pct]. *)
Definition tranche_values (term : nat) (total_principal total_cash pct : Q)
  : list Q :=
  (- (total_principal * pct))
    :: repeat (total_cash * pct / inject_Z (Z.of_nat term)) term.

(** A pool the script can draw: [num_loans] principals and as many
    annual rates, all positive. *)
Definition valid_pool (num_loans : nat) (loan_amounts interest_rates : list Q)
  : Prop :=
  length loan_amounts = num_loans /\
  length interest_rates = num_loans /\
  Forall (fun x => 0 < x) loan_amounts /\
  Forall (fun x => 0 < x) interest_rates.

(** * Properties *)

(** ** Arithmetic facts *)

Lemma Qltb_lt (x y : Q) : Qltb x y = true <-> x < y.
Proof. unfold Qltb, Qlt. apply Z.ltb_lt. Qed.

Lemma Qltb_ge (x y : Q) : Qltb x y = false <-> y <= x.
Proof. unfold Qltb, Qle. apply Z.ltb_ge. Qed.

Lemma discount_0 (r : Q) : discount r 0 == 1.
Proof. reflexivity. Qed.

Lemma discount_S (r : Q) (j : nat) :
  0 < 1 + r -> discount r (S j) * (1 + r) == discount r j.
Proof.
  intros Hq. unfold discount.
  replace (- Z.of_nat (S j))%Z with (- Z.of_nat j + - 1)%Z by lia.
  rewrite Qpower_plus by lra.
  change ((1 + r) ^ (-1)) with (/ (1 + r)).
  field. lra.
Qed.

Lemma discount_pos (r : Q) (j : nat) : 0 < 1 + r -> 0 < discount r j.
Proof. intros Hq. unfold discount. now apply Qpower_0_lt. Qed.

Lemma discount_le_1 (r : Q) (j : nat) : 0 <= r -> discount r j <= 1.
Proof.
  intros Hr. induction j as [|j IH].
  - rewrite discount_0. lra.
  - assert (Hq : 0 < 1 + r) by lra.
    pose proof (discount_S r j Hq) as HS.
    pose proof (discount_pos r (S j) Hq) as Hp.
    nra.
Qed.

Lemma discount_lt_1 (r : Q) (j : nat) :
  0 < r -> (0 < j)%nat -> discount r j < 1.
Proof.
  intros Hr Hj. destruct j as [|j]; [lia|].
  assert (Hq : 0 < 1 + r) by lra.
  pose proof (discount_S r j Hq) as HS.
  pose proof (discount_pos r (S j) Hq) as Hp.
  pose proof (discount_le_1 r j (Qlt_le_weak _ _ Hr)) as Hle.
  nra.
Qed.

(** ** The loop on a payment that amortizes the balance exactly *)

(** Both branches of a turn at once. *)
Ltac month_branches r balance pay :=
  unfold month; cbv zeta;
  destruct (Qltb balance (pay - balance * r)); cbn.

Lemma monthly_payment_pos (principal annual_rate : Q) (months : nat) :
  0 < principal -> 0 < annual_rate -> (0 < months)%nat ->
  0 < monthly_payment principal annual_rate months.
Proof.
  intros Hp Ha Hm. unfold monthly_payment. fold (discount (annual_rate / 12) months).
  assert (Hr : 0 < annual_rate / 12) by (apply Qlt_shift_div_l; lra).
  pose proof (discount_lt_1 _ _ Hr Hm) as Hd.
  apply Qlt_shift_div_l; [lra | nra].
Qed.

Lemma monthly_payment_on_schedule (principal annual_rate : Q) (months : nat) :
  0 < annual_rate -> (0 < months)%nat ->
  on_schedule (annual_rate / 12)
              (monthly_payment principal annual_rate months) months principal.
Proof.
  intros Ha Hm. unfold on_schedule, monthly_payment.
  fold (discount (annual_rate / 12) months).
  assert (Hr : 0 < annual_rate / 12) by (apply Qlt_shift_div_l; lra).
  pose proof (discount_lt_1 _ _ Hr Hm) as Hd.
  field. lra.
Qed.

(** One turn on schedule: the test [balance < principal_payment] fails,
    the payment is recorded unchanged and the balance is on schedule for
    one month less. *)
Lemma month_on_schedule (r pay : Q) (j : nat) (balance : Q) :
  0 < r -> 0 <= pay -> on_schedule r pay (S j) balance ->
  let row := month r balance pay in
  adjusted row = false /\ cashflow row = pay /\ pay_after row = pay /\
  principal_payment row == pay * discount r (S j) /\
  0 <= balance_after row /\
  on_schedule r pay j (balance_after row).
Proof.
  intros Hr Hpay Hs.
  assert (Hq : 0 < 1 + r) by lra.
  pose proof (discount_S r j Hq) as HS.
  pose proof (discount_le_1 r j (Qlt_le_weak _ _ Hr)) as Hle.
  unfold on_schedule in Hs.
  assert (E1 : balance * r * (1 + r) == pay * (1 - discount r (S j)) * (1 + r))
    by (rewrite Hs; ring).
  assert (E2 : pay * (discount r (S j) * (1 + r)) == pay * discount r j)
    by (rewrite HS; ring).
  assert (Hnext : (balance - (pay - balance * r)) * r
                  == pay * (1 - discount r j)).
  { setoid_replace ((balance - (pay - balance * r)) * r)
      with (balance * r * (1 + r) - pay * r) by ring.
    rewrite E1.
    setoid_replace (pay * (1 - discount r (S j)) * (1 + r) - pay * r)
      with (pay - pay * (discount r (S j) * (1 + r))) by ring.
    rewrite E2. ring. }
  assert (Hnn : 0 <= balance - (pay - balance * r)).
  { assert (H0 : 0 <= pay * (1 - discount r j))
      by (apply Qmult_le_0_compat; lra).
    rewrite <- Hnext in H0. clear - H0 Hr.
    destruct (Qlt_le_dec (balance - (pay - balance * r)) 0) as [Hneg|]; [|assumption].
    exfalso. nra. }
  unfold month. cbv zeta.
  destruct (Qltb balance (pay - balance * r)) eqn:Hb.
  - apply Qltb_lt in Hb. lra.
  - cbn. repeat split; try assumption.
    setoid_replace (pay * discount r (S j)) with (pay - pay * (1 - discount r (S j)))
      by ring.
    rewrite <- Hs. reflexivity.
Qed.

Lemma amortize_on_schedule (r pay : Q) (j : nat) :
  0 < r -> 0 <= pay ->
  forall balance, on_schedule r pay j balance ->
  Forall (fun row =>
            adjusted row = false /\ cashflow row = pay /\
            0 <= balance_after row /\
            balance_after row == balance_before row - principal_payment row /\
            0 <= principal_payment row)
         (amortize r j balance pay) /\
  fst (final_state r j balance pay) == 0 /\
  Qsum (map principal_payment (amortize r j balance pay)) == balance.
Proof.
  intros Hr Hpay. induction j as [|j IH]; intros balance Hs.
  - cbn. unfold on_schedule in Hs. rewrite discount_0 in Hs.
    assert (balance == 0) by nra.
    split; [constructor|]. split; [assumption|]. now symmetry.
  - destruct (month_on_schedule r pay j balance Hr Hpay Hs)
      as (Hadj & Hcf & Hpa & Hpp & Hnn & Hnext).
    cbn [amortize final_state]. cbv zeta. rewrite Hpa.
    destruct (IH _ Hnext) as (Hall & Hfin & Hsum).
    split; [|split].
    + constructor; [|assumption].
      repeat split; try assumption.
      * month_branches r balance pay; reflexivity.
      * rewrite Hpp. pose proof (discount_pos r (S j)). nra.
    + assumption.
    + cbn [map Qsum]. rewrite Hsum.
      month_branches r balance pay; ring.
Qed.

(** ** The rows follow one another *)

Lemma month_before (r balance pay : Q) :
  balance_before (month r balance pay) = balance /\
  pay_before (month r balance pay) = pay.
Proof. month_branches r balance pay; split; reflexivity. Qed.

Lemma month_interest (r balance pay : Q) :
  interest_payment (month r balance pay) = balance * r.
Proof. month_branches r balance pay; reflexivity. Qed.

Lemma amortize_chained (r : Q) (term : nat) :
  forall balance pay, chained balance pay (amortize r term balance pay).
Proof.
  induction term as [|term IH]; intros balance pay; cbn; [exact I|].
  destruct (month_before r balance pay) as [Hb Hp].
  repeat split; try assumption. apply IH.
Qed.

Lemma amortize_length (r : Q) (term : nat) :
  forall balance pay, length (amortize r term balance pay) = term.
Proof.
  induction term as [|term IH]; intros balance pay; cbn; [reflexivity|].
  now rewrite IH.
Qed.

Lemma last_cons_default {A : Type} (l : list A) :
  forall a d, last (a :: l) d = last l a.
Proof.
  induction l as [|b l IH]; intros a d; [reflexivity|].
  change (last (a :: b :: l) d) with (last (b :: l) d).
  now rewrite !IH.
Qed.

(** The variables when the loop is left are those the last row left. *)
Lemma final_state_last (r : Q) (term : nat) :
  forall balance pay,
    final_state r term balance pay =
    last (map (fun row => (balance_after row, pay_after row))
              (amortize r term balance pay))
         (balance, pay).
Proof.
  induction term as [|term IH]; intros balance pay; [reflexivity|].
  cbn [final_state amortize map]. cbv zeta. rewrite IH.
  now rewrite last_cons_default.
Qed.

(** In either branch the recorded payment is principal plus interest. *)
Lemma month_cashflow_split (r balance pay : Q) :
  cashflow (month r balance pay)
  == principal_payment (month r balance pay)
     + interest_payment (month r balance pay).
Proof. month_branches r balance pay; ring. Qed.

Lemma amortize_cashflow_split (r : Q) (term : nat) :
  forall balance pay,
    Qsum (map cashflow (amortize r term balance pay))
    - Qsum (map principal_payment (amortize r term balance pay))
    == Qsum (map interest_payment (amortize r term balance pay)).
Proof.
  induction term as [|term IH]; intros balance pay; cbn [amortize map Qsum].
  - ring.
  - cbv zeta. specialize (IH (balance_after (month r balance pay))
                             (pay_after (month r balance pay))).
    pose proof (month_cashflow_split r balance pay). lra.
Qed.

(** ** C1 *)

(** C1. For a loan with positive principal, positive annual rate and a
    term of at least one month, the loop leaves a balance equal to 0
    after [term] months, the principal components of the schedule add up
    to the original principal, and what the schedule pays beyond them is
    the interest accrued. *)
Theorem loan_fully_amortized (principal annual_rate : Q) (term : nat) :
  0 < principal -> 0 < annual_rate -> annual_rate < 1 -> (0 < term)%nat ->
  loan_final_balance principal annual_rate term == 0 /\
  Qsum (map principal_payment (loan_rows principal annual_rate term))
  == principal /\
  Qsum (loan_schedule principal annual_rate term)
  - Qsum (map principal_payment (loan_rows principal annual_rate term))
  == Qsum (map interest_payment (loan_rows principal annual_rate term)).
Proof.
  intros Hp Ha _ Ht.
  assert (Hr : 0 < annual_rate / 12) by (apply Qlt_shift_div_l; lra).
  pose proof (monthly_payment_pos principal annual_rate term Hp Ha Ht) as Hpay.
  pose proof (monthly_payment_on_schedule principal annual_rate term Ha Ht) as Hs.
  destruct (amortize_on_schedule _ _ term Hr (Qlt_le_weak _ _ Hpay) _ Hs)
    as (_ & Hfin & Hsum).
  unfold loan_final_balance, loan_schedule, loan_rows.
  split; [assumption|]. split; [assumption|].
  apply amortize_cashflow_split.
Qed.

Lemma loan_fully_amortized_witness :
  loan_final_balance 10000 (12 # 100) 12 == 0 /\
  Qsum (map principal_payment (loan_rows 10000 (12 # 100) 12)) == 10000 /\
  Qsum (loan_schedule 10000 (12 # 100) 12)
  - Qsum (map principal_payment (loan_rows 10000 (12 # 100) 12))
  == Qsum (map interest_payment (loan_rows 10000 (12 # 100) 12)).
Proof.
  apply (loan_fully_amortized 10000 (12 # 100) 12);
    [reflexivity | reflexivity | reflexivity | lia].
Defined.

(** ** C2 *)

(** C2. For a loan with positive principal and positive annual rate,
    every month of the schedule records a positive payment, and the
    running balance, which starts at the principal and is handed from
    each month to the next, never rises and is never negative. *)
Theorem loan_payment_positive_balance_decreasing
        (principal annual_rate : Q) (term : nat) :
  0 < principal -> 0 < annual_rate -> annual_rate < 1 ->
  chained principal (monthly_payment principal annual_rate term)
          (loan_rows principal annual_rate term) /\
  Forall (fun row =>
            0 < cashflow row /\
            balance_after row <= balance_before row /\
            0 <= balance_after row)
         (loan_rows principal annual_rate term).
Proof.
  intros Hp Ha _. split; [apply amortize_chained|].
  destruct term as [|term']; [constructor|].
  set (term := S term').
  assert (Ht : (0 < term)%nat) by (unfold term; lia).
  assert (Hr : 0 < annual_rate / 12) by (apply Qlt_shift_div_l; lra).
  pose proof (monthly_payment_pos principal annual_rate term Hp Ha Ht) as Hpay.
  pose proof (monthly_payment_on_schedule principal annual_rate term Ha Ht) as Hs.
  destruct (amortize_on_schedule _ _ term Hr (Qlt_le_weak _ _ Hpay) _ Hs)
    as (Hall & _ & _).
  unfold loan_rows. revert Hall. apply Forall_impl.
  intros row (_ & Hcf & Hnn & Hstep & Hpp).
  rewrite Hcf. repeat split; try assumption. lra.
Qed.

Lemma loan_payment_positive_balance_decreasing_witness :
  chained 10000 (monthly_payment 10000 (12 # 100) 12)
          (loan_rows 10000 (12 # 100) 12) /\
  Forall (fun row =>
            0 < cashflow row /\
            balance_after row <= balance_before row /\
            0 <= balance_after row)
         (loan_rows 10000 (12 # 100) 12).
Proof.
  apply (loan_payment_positive_balance_decreasing 10000 (12 # 100) 12);
    reflexivity.
Defined.

(** ** C3: the level payment *)

Lemma present_value_closed (r P : Q) (months : nat) :
  0 < 1 + r -> present_value r P months * r == P * (1 - discount r months).
Proof.
  intros Hq. induction months as [|m IH]; cbn [present_value].
  - rewrite discount_0. ring.
  - pose proof (discount_S r m Hq) as HS.
    setoid_replace ((present_value r P m + P * discount r (S m)) * r)
      with (present_value r P m * r + P * (discount r (S m) * (1 + r))
            - P * discount r (S m)) by ring.
    rewrite IH, HS. ring.
Qed.

(** C3. For positive principal, positive annual rate and at least one
    month, [monthly_payment] is the value of the annuity formula
    [principal * r / (1 - (1 + r)^(-months))] with [r = annual_rate / 12],
    and it is the level payment whose [months] instalments are worth the
    principal today.  For 10,000 at 12% over 12 months it is within half
    a cent of 888.49; the first month's interest is 100 and its principal
    component is within half a cent of 788.49. *)
Theorem monthly_payment_annuity :
  (forall (principal annual_rate : Q) (months : nat),
      0 < principal -> 0 < annual_rate -> (0 < months)%nat ->
      monthly_payment principal annual_rate months
      == annuity_formula principal annual_rate months /\
      present_value (annual_rate / 12)
                    (monthly_payment principal annual_rate months) months
      == principal) /\
  (Qabs (monthly_payment 10000 0.12 12 - 888.49) < 0.005 /\
   exists row rest,
     loan_rows 10000 0.12 12 = row :: rest /\
     interest_payment row == 100 /\
     Qabs (principal_payment row - 788.49) < 0.005).
Proof.
  split.
  - intros principal annual_rate months Hp Ha Hm. split.
    + unfold monthly_payment, annuity_formula. cbv zeta.
      now rewrite Qpower_opp.
    + assert (Hr : 0 < annual_rate / 12) by (apply Qlt_shift_div_l; lra).
      assert (Hq : 0 < 1 + annual_rate / 12) by lra.
      pose proof (present_value_closed (annual_rate / 12)
                    (monthly_payment principal annual_rate months) months Hq) as Hpv.
      pose proof (monthly_payment_on_schedule principal annual_rate months Ha Hm) as Hs.
      unfold on_schedule in Hs. rewrite <- Hs in Hpv.
      apply Qmult_inj_r in Hpv; [assumption | lra].
  - split.
    + vm_compute. reflexivity.
    + eexists. eexists. split; [reflexivity|].
      split; vm_compute; reflexivity.
Qed.

Lemma monthly_payment_annuity_witness :
  monthly_payment 10000 0.12 12 == annuity_formula 10000 0.12 12 /\
  present_value (0.12 / 12) (monthly_payment 10000 0.12 12) 12 == 10000.
Proof.
  apply (proj1 monthly_payment_annuity 10000 0.12 12%nat);
    [reflexivity | reflexivity | lia].
Defined.

(** ** The loop on any payment *)

(** What the adjustment branch does when it is taken. *)
Lemma month_adjusted (r balance pay : Q) :
  balance < pay - balance * r ->
  let row := month r balance pay in
  adjusted row = true /\
  principal_payment row = balance /\
  cashflow row = balance + balance * r /\
  pay_after row = cashflow row /\
  cashflow row < pay /\
  balance_after row == 0.
Proof.
  intros Hlt. apply Qltb_lt in Hlt as Hb. unfold month. cbv zeta. rewrite Hb.
  cbn. repeat split; try reflexivity; [lra | ring].
Qed.

(** What a turn does when the branch is not taken. *)
Lemma month_not_adjusted (r balance pay : Q) :
  pay - balance * r <= balance ->
  let row := month r balance pay in
  adjusted row = false /\
  principal_payment row = pay - balance * r /\
  cashflow row = pay /\
  pay_after row = pay /\
  balance_after row = balance - (pay - balance * r).
Proof.
  intros Hle. apply Qltb_ge in Hle as Hb. unfold month. cbv zeta. rewrite Hb.
  cbn. repeat split; reflexivity.
Qed.

Lemma month_cases (r balance pay : Q) :
  balance < pay - balance * r \/ pay - balance * r <= balance.
Proof.
  destruct (Qlt_le_dec balance (pay - balance * r)); [left | right]; assumption.
Qed.

Lemma month_adjusted_iff (r balance pay : Q) :
  adjusted (month r balance pay) = true <-> balance < pay - balance * r.
Proof.
  split.
  - intros Hadj. destruct (month_cases r balance pay) as [H|H]; [assumption|].
    destruct (month_not_adjusted r balance pay H) as (Hf & _). congruence.
  - intros H. apply (month_adjusted r balance pay H).
Qed.

(** No turn leaves a negative balance, whatever it started with. *)
Lemma month_balance_nonneg (r balance pay : Q) :
  0 <= balance_after (month r balance pay).
Proof.
  destruct (month_cases r balance pay) as [H|H].
  - destruct (month_adjusted r balance pay H) as (_ & _ & _ & _ & _ & Hz).
    rewrite Hz. lra.
  - destruct (month_not_adjusted r balance pay H) as (_ & _ & _ & _ & Hb).
    rewrite Hb. lra.
Qed.

(** The variable [pay] never grows, and the entry recorded is the value
    it is left with. *)
Lemma month_pay (r balance pay : Q) :
  pay_after (month r balance pay) <= pay /\
  cashflow (month r balance pay) = pay_after (month r balance pay).
Proof.
  destruct (month_cases r balance pay) as [H|H].
  - destruct (month_adjusted r balance pay H) as (_ & _ & _ & Hp & Hlt & _).
    rewrite Hp. split; [lra | reflexivity].
  - destruct (month_not_adjusted r balance pay H) as (_ & _ & Hc & Hp & _).
    rewrite Hp, Hc. split; [lra | reflexivity].
Qed.

Lemma month_pay_nonneg (r balance pay : Q) :
  0 <= r -> 0 <= balance -> 0 <= pay -> 0 <= pay_after (month r balance pay).
Proof.
  intros Hr Hb Hp. destruct (month_cases r balance pay) as [H|H].
  - destruct (month_adjusted r balance pay H) as (_ & _ & Hc & Hpa & _ & _).
    rewrite Hpa, Hc. nra.
  - destruct (month_not_adjusted r balance pay H) as (_ & _ & _ & Hpa & _).
    now rewrite Hpa.
Qed.

Lemma amortize_balance_nonneg (r : Q) (term : nat) :
  forall balance pay,
    Forall (fun row => 0 <= balance_after row) (amortize r term balance pay).
Proof.
  induction term as [|term IH]; intros balance pay; cbn [amortize]; constructor.
  - apply month_balance_nonneg.
  - apply IH.
Qed.

Lemma amortize_pay_bound (r : Q) (term : nat) :
  forall balance pay,
    Forall (fun row => pay_before row <= pay /\ cashflow row <= pay)
           (amortize r term balance pay).
Proof.
  induction term as [|term IH]; intros balance pay; cbn [amortize]; constructor.
  - destruct (month_before r balance pay) as [_ Hp].
    destruct (month_pay r balance pay) as [Hle Hc].
    rewrite Hp, Hc. split; [lra | assumption].
  - destruct (month_pay r balance pay) as [Hle _].
    eapply Forall_impl; [|apply IH].
    cbn. intros row [H1 H2]. split; lra.
Qed.

(** Once the balance is 0 and [pay] is not negative, every turn records 0
    and leaves the balance at 0. *)
Lemma amortize_zero_balance (r : Q) (term : nat) :
  forall balance pay,
    balance == 0 -> 0 <= pay ->
    Forall (fun row => cashflow row == 0 /\ balance_after row == 0)
           (amortize r term balance pay).
Proof.
  induction term as [|term IH]; intros balance pay Hb Hp; cbn [amortize]; constructor.
  - destruct (month_cases r balance pay) as [H|H].
    + destruct (month_adjusted r balance pay H) as (_ & _ & Hc & _ & _ & Hz).
      rewrite Hc. split; [rewrite Hb; ring | assumption].
    + destruct (month_not_adjusted r balance pay H) as (_ & _ & Hc & _ & Hba).
      rewrite Hb in H. rewrite Hc, Hba. split; [lra | rewrite Hb; lra].
  - apply IH.
    + destruct (month_cases r balance pay) as [H|H].
      * now destruct (month_adjusted r balance pay H) as (_ & _ & _ & _ & _ & Hz).
      * destruct (month_not_adjusted r balance pay H) as (_ & _ & _ & _ & Hba).
        rewrite Hb in H. rewrite Hba, Hb. lra.
    + destruct (month_cases r balance pay) as [H|H].
      * destruct (month_adjusted r balance pay H) as (_ & _ & Hc & Hpa & _ & _).
        rewrite Hpa, Hc, Hb. lra.
      * destruct (month_not_adjusted r balance pay H) as (_ & _ & _ & Hpa & _).
        now rewrite Hpa.
Qed.

(** The months after a given row are the loop started with the
    variables that row left. *)
Lemma amortize_split (r : Q) (term : nat) :
  forall balance pay pre row post,
    0 <= r -> 0 <= balance -> 0 <= pay ->
    amortize r term balance pay = pre ++ row :: post ->
    post = amortize r (length post) (balance_after row) (pay_after row) /\
    0 <= pay_after row.
Proof.
  induction term as [|term IH]; intros balance pay pre row post Hr Hb Hp Heq.
  - destruct pre; discriminate.
  - cbn [amortize] in Heq. cbv zeta in Heq. destruct pre as [|row0 pre].
    + cbn in Heq. injection Heq as Hrow Hpost. subst row. split.
      * rewrite <- Hpost at 2. rewrite amortize_length. now symmetry.
      * now apply month_pay_nonneg.
    + cbn in Heq. injection Heq as Hrow Hrest. subst row0.
      apply (IH _ _ _ _ _ Hr (month_balance_nonneg r balance pay)
                (month_pay_nonneg r balance pay Hr Hb Hp) Hrest).
Qed.

(** ** C10: the adjusted payment is kept *)

(** C10. The loop started on a non-negative balance and payment, at a
    non-negative rate.  When a month takes the adjustment branch, the
    lowered payment is what [pay] holds afterwards: every later month
    starts with at most that value and records at most that value, so
    the scheduled payment never comes back.  Once a month leaves the
    balance at 0, every later month records a payment equal to 0 and
    leaves the balance at 0. *)
Theorem adjusted_payment_persists (r : Q) (term : nat) (balance pay : Q) :
  0 <= r -> 0 <= balance -> 0 <= pay ->
  forall pre row post,
    amortize r term balance pay = pre ++ row :: post ->
    (adjusted row = true ->
     cashflow row < pay_before row /\
     pay_after row = cashflow row /\
     balance_after row == 0 /\
     Forall (fun later =>
               pay_before later <= cashflow row /\
               cashflow later <= cashflow row) post) /\
    (balance_after row == 0 ->
     Forall (fun later => cashflow later == 0 /\ balance_after later == 0)
            post).
Proof.
  intros Hr Hb Hp pre row post Heq.
  destruct (amortize_split r term balance pay pre row post Hr Hb Hp Heq)
    as [Hpost Hpa].
  pose proof (amortize_chained r term balance pay) as Hch.
  assert (Hrow : row = month r (balance_before row) (pay_before row)).
  { clear - Heq. revert balance pay pre Heq.
    induction term as [|term IH]; intros balance pay pre Heq.
    - destruct pre; discriminate.
    - cbn [amortize] in Heq. cbv zeta in Heq. destruct pre as [|row0 pre].
      + cbn in Heq. injection Heq as Hrow _. subst row.
        destruct (month_before r balance pay) as [H1 H2]. now rewrite H1, H2.
      + cbn in Heq. injection Heq as _ Hrest. eapply IH; eassumption. }
  split.
  - intros Hadj. rewrite Hrow in Hadj. apply month_adjusted_iff in Hadj.
    destruct (month_adjusted _ _ _ Hadj) as (_ & _ & _ & H4 & H5 & H6).
    rewrite <- Hrow in H4, H5, H6.
    repeat split; try assumption.
    rewrite Hpost, <- H4. apply amortize_pay_bound.
  - intros Hz. rewrite Hpost. now apply amortize_zero_balance.
Qed.

Lemma adjusted_payment_persists_witness :
  (cashflow overpaid_second < pay_before overpaid_second /\
   pay_after overpaid_second = cashflow overpaid_second /\
   balance_after overpaid_second == 0 /\
   Forall (fun later =>
             pay_before later <= cashflow overpaid_second /\
             cashflow later <= cashflow overpaid_second) overpaid_rest) /\
  Forall (fun later => cashflow later == 0 /\ balance_after later == 0)
         overpaid_rest.
Proof.
  pose proof (adjusted_payment_persists (1 # 10) 4 100 80
                ltac:(discriminate) ltac:(discriminate) ltac:(discriminate)
                [overpaid_first] overpaid_second overpaid_rest eq_refl)
    as [Hadj Hzero].
  split; [apply Hadj | apply Hzero]; reflexivity.
Defined.

(** ** Rows by position *)

Lemma Forall_nth_error_at {A : Type} (P : A -> Prop) (l : list A) (n : nat) (x : A) :
  Forall P l -> nth_error l n = Some x -> P x.
Proof.
  intros Hall Hn. apply nth_error_In in Hn.
  rewrite Forall_forall in Hall. now apply Hall.
Qed.

Lemma nth_error_in_range {A : Type} (l : list A) (n : nat) :
  (n < length l)%nat -> exists x, nth_error l n = Some x.
Proof.
  intros Hn. destruct (nth_error l n) as [x|] eqn:E.
  - now exists x.
  - apply nth_error_None in E. lia.
Qed.

(** ** C4: when the adjustment is taken *)

(** On schedule, the last month starts with a balance which, with the
    interest on it, is the payment: the balance and the computed
    principal component are equal, and the strict test is a tie. *)
Lemma amortize_on_schedule_tie (r pay : Q) (j : nat) :
  0 < r -> 0 <= pay ->
  forall balance row,
    on_schedule r pay j balance ->
    nth_error (amortize r j balance pay) (j - 1) = Some row ->
    balance_before row + interest_payment row == pay.
Proof.
  intros Hr Hpay. induction j as [|j IH]; intros balance row Hs Hn.
  - discriminate.
  - destruct (month_on_schedule r pay j balance Hr Hpay Hs)
      as (Hadj & _ & Hpa & _ & _ & Hnext).
    cbn [amortize] in Hn. cbv zeta in Hn. rewrite Hpa in Hn.
    destruct j as [|j'].
    + cbn in Hn. injection Hn as <-.
      unfold on_schedule in Hnext. rewrite discount_0 in Hnext.
      assert (Hz : balance_after (month r balance pay) == 0) by nra.
      destruct (month_before r balance pay) as [Hbb _].
      rewrite Hbb, month_interest.
      destruct (month_cases r balance pay) as [H|H].
      * destruct (month_adjusted r balance pay H) as (Ht & _). congruence.
      * destruct (month_not_adjusted r balance pay H) as (_ & _ & _ & _ & Hba).
        rewrite Hba in Hz. lra.
    + replace (S (S j') - 1)%nat with (S (S j' - 1)) in Hn by lia.
      cbn [nth_error] in Hn. now apply (IH _ _ Hnext).
Qed.

(** [power_2] is the binary64 number nearest to the power it stands
    for. *)
Lemma binary64_power_2_nearest :
  let exact := Binary64.to_Q (1 + Binary64.rate_6pct / 12)%float ^ (-2) in
  Binary64.to_Q Binary64.power_2 < exact /\
  exact < Binary64.to_Q (next_up Binary64.power_2) /\
  exact - Binary64.to_Q Binary64.power_2
  < Binary64.to_Q (next_up Binary64.power_2) - exact.
Proof. vm_compute. repeat split. Qed.

(** C4, as the loop has it.  When the balance is below the computed
    principal component, the principal component becomes the balance and
    the payment becomes that plus the interest; no month, on any input,
    leaves a negative balance.  On the last month of a loan with
    positive principal and annual rate, run on its scheduled payment,
    the balance with the interest on it equals the payment: the strict
    test compares two equal amounts, and rounding decides it.  On
    binary64 numbers the last month of 2,400 at 6% over 2 months is
    adjusted, recording 1209.0074812967382 after 1209.007481296778 and
    leaving 0, and no month of 10,000 at 12% over 12 months is. *)
Theorem adjustment_clamps_balance :
  (forall r balance pay : Q,
      balance < pay - balance * r ->
      adjusted (month r balance pay) = true /\
      principal_payment (month r balance pay) = balance /\
      cashflow (month r balance pay)
      = principal_payment (month r balance pay)
        + interest_payment (month r balance pay) /\
      balance_after (month r balance pay) == 0) /\
  (forall (r : Q) (term : nat) (balance pay : Q),
      Forall (fun row => 0 <= balance_after row)
             (amortize r term balance pay)) /\
  (forall (principal annual_rate : Q) (term : nat),
      0 < principal -> 0 < annual_rate -> (0 < term)%nat ->
      exists row,
        nth_error (loan_rows principal annual_rate term) (term - 1) = Some row /\
        balance_before row + interest_payment row
        == monthly_payment principal annual_rate term) /\
  (map Binary64.adjusted (Binary64.loan_2 Binary64.power_2) = [false; true] /\
   map Binary64.cashflow (Binary64.loan_2 Binary64.power_2)
   = [0x1.2e407a92d53f9p+10%float; 0x1.2e407a92d534ap+10%float] /\
   map Binary64.balance_after (skipn 1 (Binary64.loan_2 Binary64.power_2))
   = [0%float]) /\
  map Binary64.adjusted (Binary64.loan_12 Binary64.power_12) = repeat false 12.
Proof.
  split; [|split; [|split; [|split]]].
  - intros r balance pay Hlt. apply Qltb_lt in Hlt as Hb.
    unfold month. cbv zeta. rewrite Hb. cbn.
    repeat split; try reflexivity. ring.
  - intros. apply amortize_balance_nonneg.
  - intros principal annual_rate term Hp Ha Ht.
    assert (Hr : 0 < annual_rate / 12) by (apply Qlt_shift_div_l; lra).
    pose proof (monthly_payment_pos principal annual_rate term Hp Ha Ht) as Hpay.
    pose proof (monthly_payment_on_schedule principal annual_rate term Ha Ht) as Hs.
    unfold loan_rows.
    destruct (nth_error_in_range
                (amortize (annual_rate / 12) term principal
                          (monthly_payment principal annual_rate term))
                (term - 1)) as [row Hrow].
    { rewrite amortize_length. lia. }
    exists row. split; [assumption|].
    exact (amortize_on_schedule_tie _ _ term Hr (Qlt_le_weak _ _ Hpay)
             _ _ Hs Hrow).
  - vm_compute. repeat split.
  - vm_compute. reflexivity.
Qed.

(** 30 left at 10% a month against a payment of 80: the month is
    adjusted, repays the 30 and records 33.  1,200 at 12% for one
    month: the balance with its interest is the payment of 1,212. *)
Lemma adjustment_clamps_balance_witness :
  (adjusted (month (1 # 10) 30 80) = true /\
   principal_payment (month (1 # 10) 30 80) = 30 /\
   cashflow (month (1 # 10) 30 80)
   = principal_payment (month (1 # 10) 30 80)
     + interest_payment (month (1 # 10) 30 80) /\
   balance_after (month (1 # 10) 30 80) == 0) /\
  exists row,
    nth_error (loan_rows 1200 0.12 1) (1 - 1) = Some row /\
    balance_before row + interest_payment row == monthly_payment 1200 0.12 1.
Proof.
  destruct adjustment_clamps_balance as (Hclamp & _ & Htie & _).
  split.
  - apply (Hclamp (1 # 10) 30 80). reflexivity.
  - apply (Htie 1200 0.12 1%nat); [reflexivity | reflexivity | lia].
Defined.

(** ** A scheduled loan whose last month is not adjusted *)

(** [power_12] is the binary64 number nearest to the power it stands
    for: the power lies between it and the next number up, nearer to
    it. *)
Lemma binary64_power_12_nearest :
  let exact := Binary64.to_Q (1 + Binary64.rate_12pct / 12)%float ^ (-12) in
  Binary64.to_Q Binary64.power_12 < exact /\
  exact < Binary64.to_Q (next_up Binary64.power_12) /\
  exact - Binary64.to_Q Binary64.power_12
  < Binary64.to_Q (next_up Binary64.power_12) - exact.
Proof. vm_compute. repeat split. Qed.

(** On binary64 numbers the last month of that loan is decided by the
    last bit of the power: with the nearest number no month is adjusted
    and a balance of about 1.08e-11 is left; one step up, the last
    month is adjusted and the balance left is 0. *)
Lemma binary64_loan_12 :
  map Binary64.adjusted (Binary64.loan_12 Binary64.power_12)
  = repeat false 12 /\
  map Binary64.balance_after (skipn 11 (Binary64.loan_12 Binary64.power_12))
  = [0x1.7cp-37%float] /\
  map Binary64.adjusted (Binary64.loan_12 (next_up Binary64.power_12))
  = repeat false 11 ++ [true] /\
  map Binary64.balance_after
      (skipn 11 (Binary64.loan_12 (next_up Binary64.power_12)))
  = [0%float].
Proof. vm_compute. repeat split. Qed.

(** The scheduled loan of 10,000 at 12% over 12 months is repaid in full
    by its 12 payments, yet the adjustment is not taken in its last
    month: not on exact numbers, and not in the binary64 replay with the
    power rounded to the nearest number. *)
Lemma last_month_not_adjusted :
  (loan_final_balance 10000 0.12 12 == 0 /\
   exists row,
     nth_error (loan_rows 10000 0.12 12) 11 = Some row /\
     adjusted row = false) /\
  map Binary64.adjusted (skipn 11 (Binary64.loan_12 Binary64.power_12))
  = [false].
Proof.
  split; [|vm_compute; reflexivity].
  assert (Hr : 0 < 0.12 / 12) by reflexivity.
  assert (Hpay : 0 <= monthly_payment 10000 0.12 12)
    by (apply Qlt_le_weak, monthly_payment_pos; [reflexivity | reflexivity | lia]).
  pose proof (monthly_payment_on_schedule 10000 0.12 12
                ltac:(reflexivity) ltac:(lia)) as Hs.
  destruct (amortize_on_schedule _ _ 12 Hr Hpay _ Hs) as (Hall & Hfin & _).
  split; [exact Hfin|].
  destruct (nth_error_in_range (loan_rows 10000 0.12 12) 11) as [row Hrow].
  { unfold loan_rows. rewrite amortize_length. lia. }
  exists row. split; [assumption|].
  unfold loan_rows in Hrow.
  now destruct (Forall_nth_error_at _ _ _ _ Hall Hrow) as (Hadj & _).
Qed.

(** The same on a loan small enough to follow by hand: 1,200 at 12% for
    one month is paid 1,212, of which 12 interest and 1,200 principal;
    [1200 < 1200] fails, and the balance left is 0. *)
Example one_month_loan :
  map (fun row => (Qred (cashflow row), Qred (interest_payment row),
                   Qred (principal_payment row), adjusted row,
                   Qred (balance_after row)))
      (loan_rows 1200 0.12 1)
  = [(1212, 12, 1200, false, 0)].
Proof. vm_compute. reflexivity. Qed.

(** ** C7: the portfolio totals *)

Lemma vadd_length (a b : list Q) :
  length a = length b -> length (vadd a b) = length a.
Proof.
  revert b. induction a as [|x a IH]; intros [|y b] H; cbn in *;
    try reflexivity; try discriminate.
  f_equal. apply IH. lia.
Qed.

Lemma vadd_sum (a b : list Q) :
  length a = length b -> Qsum (vadd a b) == Qsum a + Qsum b.
Proof.
  revert b. induction a as [|x a IH]; intros [|y b] H; cbn in *;
    try discriminate.
  - ring.
  - rewrite IH by lia. ring.
Qed.

Lemma vadd_nth (a b : list Q) (m : nat) :
  length a = length b ->
  nth m (vadd a b) 0 == nth m a 0 + nth m b 0.
Proof.
  revert b m. induction a as [|x a IH]; intros [|y b] m H; cbn in *;
    try discriminate.
  - destruct m; ring.
  - destruct m; [reflexivity|]. apply IH. lia.
Qed.

(** The running sum of [fold_left vadd], from any row [acc] of the
    right width. *)
Lemma fold_vadd (rows : list (list Q)) :
  forall acc,
    Forall (fun row => length row = length acc) rows ->
    length (fold_left vadd rows acc) = length acc /\
    Qsum (fold_left vadd rows acc) == Qsum acc + Qsum (map Qsum rows) /\
    forall m, nth m (fold_left vadd rows acc) 0
              == nth m acc 0 + Qsum (map (fun row => nth m row 0) rows).
Proof.
  induction rows as [|row rows IH]; intros acc Hall; cbn [fold_left map Qsum].
  - split; [reflexivity|]. split; [ring|]. intros m. ring.
  - inversion Hall as [|? ? Hrow Hrest]; subst.
    assert (Hlen : length (vadd acc row) = length acc)
      by (apply vadd_length; now symmetry).
    destruct (IH (vadd acc row)) as (H1 & H2 & H3).
    { revert Hrest. apply Forall_impl. intros; congruence. }
    split; [congruence|]. split.
    + rewrite H2, vadd_sum by (now symmetry). ring.
    + intros m. rewrite H3, vadd_nth by (now symmetry). ring.
Qed.

Lemma Qsum_repeat_0 (n : nat) : Qsum (repeat 0 n) == 0.
Proof. induction n as [|n IH]; cbn [repeat Qsum]; [reflexivity|]. rewrite IH. ring. Qed.

Lemma nth_repeat_0 (n m : nat) : nth m (repeat 0 n) 0 == 0.
Proof.
  revert m. induction n as [|n IH]; intros [|m]; cbn; try reflexivity. apply IH.
Qed.

Lemma loan_cashflows_width (num_loans term : nat) (loan_amounts interest_rates : list Q) :
  Forall (fun row => length row = term)
         (loan_cashflows num_loans term loan_amounts interest_rates).
Proof.
  unfold loan_cashflows. apply Forall_forall. intros row Hin.
  apply in_map_iff in Hin as (i & <- & _). cbv zeta.
  now rewrite length_map, amortize_length.
Qed.

(** Row [i] of [loan_cashflows] is the schedule of loan [i]. *)
Lemma loan_cashflows_row (num_loans term : nat) (loan_amounts interest_rates : list Q) (i : nat) :
  (i < num_loans)%nat ->
  nth i (loan_cashflows num_loans term loan_amounts interest_rates) []
  = loan_schedule (nth i loan_amounts 0) (nth i interest_rates 0) term.
Proof.
  intros Hi. unfold loan_cashflows, loan_schedule, loan_rows, payments.
  set (f := fun i : nat => monthly_payment _ _ _).
  set (g := fun i : nat => _).
  assert (Hg : nth i (map g (seq 0 num_loans)) [] = g i).
  { rewrite (nth_indep _ [] (g 0%nat)) by (now rewrite length_map, length_seq).
    rewrite map_nth. now rewrite seq_nth. }
  rewrite Hg. unfold g. cbv zeta.
  assert (Hf : nth i (map f (seq 0 num_loans)) 0 = f i).
  { rewrite (nth_indep _ 0 (f 0%nat)) by (now rewrite length_map, length_seq).
    rewrite map_nth. now rewrite seq_nth. }
  now rewrite Hf.
Qed.

(** C7. [portfolio_cashflow] has [term] entries, the entry of month [m]
    being the sum over the loans of their payment of month [m];
    [total_cash] is the sum of its entries and so of all entries of all
    schedules; [total_principal] is the sum of the [num_loans]
    principals. *)
Theorem portfolio_totals (num_loans term : nat) (loan_amounts interest_rates : list Q) :
  length loan_amounts = num_loans ->
  let rows := loan_cashflows num_loans term loan_amounts interest_rates in
  let portfolio := portfolio_cashflow num_loans term loan_amounts interest_rates in
  length portfolio = term /\
  (forall m, (m < term)%nat ->
             nth m portfolio 0 == Qsum (map (fun row => nth m row 0) rows)) /\
  (forall i, (i < num_loans)%nat ->
             nth i rows [] = loan_schedule (nth i loan_amounts 0)
                                           (nth i interest_rates 0) term) /\
  total_cash num_loans term loan_amounts interest_rates == Qsum portfolio /\
  total_cash num_loans term loan_amounts interest_rates == Qsum (map Qsum rows) /\
  total_principal loan_amounts
  == Qsum (map (fun i => nth i loan_amounts 0) (seq 0 num_loans)).
Proof.
  intros Hlen rows portfolio.
  destruct (fold_vadd rows (repeat 0 term)) as (H1 & H2 & H3).
  { rewrite repeat_length. apply loan_cashflows_width. }
  rewrite repeat_length in H1.
  split; [exact H1|]. split; [|split; [|split; [|split]]].
  - intros m _. unfold portfolio, portfolio_cashflow, sum_axis0. fold rows.
    rewrite H3, nth_repeat_0. ring.
  - intros i Hi. now apply loan_cashflows_row.
  - reflexivity.
  - unfold total_cash, portfolio_cashflow, sum_axis0. fold rows.
    rewrite H2, Qsum_repeat_0. ring.
  - unfold total_principal. subst num_loans.
    clear. induction loan_amounts as [|x l IH]; [reflexivity|].
    cbn [length seq map Qsum nth]. rewrite <- seq_shift, map_map.
    cbn [nth]. now rewrite <- IH.
Qed.

Lemma portfolio_totals_witness :
  length (portfolio_cashflow 2 2 [1200; 2400] [0.12; 0.06]) = 2%nat /\
  total_cash 2 2 [1200; 2400] [0.12; 0.06]
  == Qsum (map Qsum (loan_cashflows 2 2 [1200; 2400] [0.12; 0.06])) /\
  total_principal [1200; 2400]
  == Qsum (map (fun i => nth i [1200; 2400] 0) (seq 0 2)).
Proof.
  destruct (portfolio_totals 2 2 [1200; 2400] [0.12; 0.06] eq_refl)
    as (H1 & _ & _ & _ & H5 & H6).
  split; [exact H1|]. split; [exact H5 | exact H6].
Defined.

(** ** C6: the tranche allocation *)

Lemma Qsum_repeat (x : Q) (n : nat) :
  Qsum (repeat x n) == inject_Z (Z.of_nat n) * x.
Proof.
  induction n as [|n IH]; cbn [repeat Qsum].
  - cbn. ring.
  - rewrite IH, Nat2Z.inj_succ. unfold Z.succ. rewrite inject_Z_plus. ring.
Qed.

Lemma Forall_repeat {A : Type} (P : A -> Prop) (x : A) (n : nat) :
  P x -> Forall P (repeat x n).
Proof. intros Hx. induction n; cbn; constructor; assumption. Qed.

(** C6. The fractions are 0.70, 0.20 and 0.10 and add up to 1.  Each
    tranche's investment is [total_principal] times its fraction and its
    series has [term] entries, each equal to [total_cash] times the
    fraction, over [term].  The three investments add up to
    [total_principal] and the three cash totals to [total_cash]. *)
Theorem tranche_allocation (term : nat) (total_principal total_cash : Q) :
  (senior_pct == 7 # 10 /\ mezzanine_pct == 2 # 10 /\ equity_pct == 1 # 10 /\
   senior_pct + mezzanine_pct + equity_pct == 1) /\
  (senior_investment total_principal == total_principal * senior_pct /\
   mezzanine_investment total_principal == total_principal * mezzanine_pct /\
   equity_investment total_principal == total_principal * equity_pct) /\
  (length (senior_cf term total_cash) = term /\
   length (mezzanine_cf term total_cash) = term /\
   length (equity_cf term total_cash) = term) /\
  (Forall (fun x => x == total_cash * senior_pct / inject_Z (Z.of_nat term))
          (senior_cf term total_cash) /\
   Forall (fun x => x == total_cash * mezzanine_pct / inject_Z (Z.of_nat term))
          (mezzanine_cf term total_cash) /\
   Forall (fun x => x == total_cash * equity_pct / inject_Z (Z.of_nat term))
          (equity_cf term total_cash)) /\
  senior_investment total_principal + mezzanine_investment total_principal
  + equity_investment total_principal == total_principal /\
  senior_total_cash total_cash + mezzanine_total_cash total_cash
  + equity_total_cash total_cash == total_cash.
Proof.
  unfold senior_cf, mezzanine_cf, equity_cf,
    senior_total_cash, mezzanine_total_cash, equity_total_cash,
    senior_investment, mezzanine_investment, equity_investment,
    senior_pct, mezzanine_pct, equity_pct.
  repeat split; try reflexivity; try apply repeat_length;
    try (apply Forall_repeat; reflexivity); ring.
Qed.

(** A tranche's flat series pays the tranche's cash over the term. *)
Lemma tranche_cf_sum (term : nat) (total_cash : Q) :
  (0 < term)%nat ->
  Qsum (senior_cf term total_cash) == senior_total_cash total_cash /\
  Qsum (mezzanine_cf term total_cash) == mezzanine_total_cash total_cash /\
  Qsum (equity_cf term total_cash) == equity_total_cash total_cash.
Proof.
  intros Ht.
  assert (Hn : ~ inject_Z (Z.of_nat term) == 0).
  { intros H. unfold Qeq in H. cbn in H. lia. }
  unfold senior_cf, mezzanine_cf, equity_cf.
  rewrite !Qsum_repeat. repeat split; field; assumption.
Qed.

(** ** C5: the IRR of a series *)

Lemma irr_one_period_contract (values : list Q) :
  forall rate, irr_one_period values = Num rate ->
               -1 < rate /\ npv rate values == 0.
Proof.
  intros rate H. unfold irr_one_period in H.
  destruct values as [|c0 [|c1 [|? ?]]]; try discriminate.
  destruct ((Qltb c0 0 && Qltb 0 c1) || (Qltb 0 c0 && Qltb c1 0))%bool eqn:E;
    [|discriminate].
  apply (f_equal (fun v => match v with Num q => q | NaN => 0 end)) in H.
  cbv beta iota in H.
  assert (Hrate : rate == - c1 / c0 - 1)
    by (rewrite <- H; exact (Qred_correct (- c1 / c0 - 1))).
  clear H.
  assert (Hsign : (c0 < 0 /\ 0 < c1) \/ (0 < c0 /\ c1 < 0)).
  { apply orb_true_iff in E as [E|E]; apply andb_true_iff in E as [E1 E2];
      apply Qltb_lt in E1, E2; [left | right]; split; assumption. }
  assert (Hc0 : ~ c0 == 0) by (intros Hc0; destruct Hsign as [[? ?]|[? ?]]; lra).
  assert (Hq : 0 < - c1 / c0).
  { destruct Hsign as [[H0 H1]|[H0 H1]].
    - setoid_replace (- c1 / c0) with (c1 / - c0) by (field; assumption).
      apply Qlt_shift_div_l; lra.
    - apply Qlt_shift_div_l; lra. }
  assert (Hq1 : 1 + rate == - c1 / c0) by (rewrite Hrate; ring).
  split.
  - apply (Qplus_lt_l _ _ 1). rewrite (Qplus_comm rate 1), Hq1.
    exact Hq.
  - unfold npv. cbn [npv_from]. cbn [Z.of_nat Pos.of_succ_nat].
    rewrite Qpower_0_r, Qpower_1_r, Hq1.
    field. split; [assumption|]. lra.
Qed.

(** C5. Whatever the root-finder, [calculate_irr] is [0] when the
    root-finder answers not-a-number and is the root-finder's answer
    otherwise, which under the root-finder's contract is a rate at which
    the net present value of [[-investment, cf[0], ...]] is zero.  The
    result is never not-a-number, and a failure gives the same result
    as a series whose rate is 0. *)
Theorem calculate_irr_masks_failure (irr : list Q -> irr_result)
        (cf_series : list Q) (initial_investment : Q) :
  let values := (- initial_investment) :: cf_series in
  (irr values = NaN -> calculate_irr irr cf_series initial_investment = Num 0) /\
  (forall rate,
      irr values = Num rate ->
      calculate_irr irr cf_series initial_investment = Num rate /\
      (irr_contract irr values -> npv rate values == 0)) /\
  calculate_irr irr cf_series initial_investment <> NaN /\
  (forall cf' investment',
      irr values = NaN ->
      irr ((- investment') :: cf') = Num 0 ->
      calculate_irr irr cf_series initial_investment
      = calculate_irr irr cf' investment').
Proof.
  intros values. unfold calculate_irr. fold values. cbv zeta.
  split; [|split; [|split]].
  - intros ->. reflexivity.
  - intros rate Hr. rewrite Hr. split; [reflexivity|].
    intros [Hsound _]. now apply Hsound.
  - destruct (irr values); cbn; discriminate.
  - intros cf' investment' Hnan Hzero. rewrite Hnan, Hzero. reflexivity.
Qed.

(** With the one-period root-finder: 100 invested and 100 returned has
    rate 0; 100 invested and 5 taken has no rate; both give 0. *)
Lemma calculate_irr_masks_failure_witness :
  calculate_irr irr_one_period [110] 100 = Num (1 # 10) /\
  npv (1 # 10) [- (100); 110] == 0 /\
  calculate_irr irr_one_period [- (5)] 100
  = calculate_irr irr_one_period [100] 100.
Proof.
  destruct (calculate_irr_masks_failure irr_one_period [110] 100)
    as (_ & Hnum & _ & _).
  destruct (Hnum (1 # 10) eq_refl) as [Hval Hroot].
  destruct (calculate_irr_masks_failure irr_one_period [- (5)] 100)
    as (_ & _ & _ & Hsame).
  split; [exact Hval|]. split.
  - apply Hroot. split.
    + apply irr_one_period_contract.
    + discriminate.
  - apply (Hsame [100] 100); reflexivity.
Defined.

(** ** The net present value of a tranche series *)

(** The net present value of a flat series is the flow times that of
    the series of ones. *)
Lemma npv_from_repeat (rate c : Q) (n : nat) :
  forall t, npv_from rate t (repeat c n) == c * npv_from rate t (repeat 1 n).
Proof.
  induction n as [|n IH]; intros t; cbn [repeat npv_from].
  - ring.
  - rewrite IH. unfold Qdiv. ring.
Qed.

Lemma npv_flat (rate investment c : Q) (n : nat) :
  npv rate ((- investment) :: repeat c n)
  == - investment + c * npv_from rate 1 (repeat 1 n).
Proof.
  unfold npv. cbn [npv_from]. rewrite npv_from_repeat.
  cbn [Z.of_nat]. rewrite Qpower_0_r. unfold Qdiv. 
  setoid_replace (/ 1) with 1 by reflexivity. ring.
Qed.

(** The net present value of a tranche's series is the tranche's
    fraction times that of the pool's: the fraction cancels in the
    equation that defines the rate of return. *)
Lemma tranche_values_npv (term : nat) (total_principal total_cash pct rate : Q) :
  npv rate (tranche_values term total_principal total_cash pct)
  == pct * npv rate ((- total_principal)
                       :: repeat (total_cash / inject_Z (Z.of_nat term)) term).
Proof.
  unfold tranche_values. rewrite !npv_flat. unfold Qdiv. ring.
Qed.

(** So for positive fractions the net present values of the tranches'
    series vanish at the same rates. *)
Lemma tranche_values_same_roots
      (term : nat) (total_principal total_cash pct pct' rate : Q) :
  0 < pct -> 0 < pct' ->
  npv rate (tranche_values term total_principal total_cash pct) == 0 <->
  npv rate (tranche_values term total_principal total_cash pct') == 0.
Proof.
  intros Hp Hp'. rewrite !tranche_values_npv.
  set (pool := npv rate _).
  split; intros H; apply Qmult_integral in H as [H|H];
    try lra; rewrite H; ring.
Qed.

(** ** C9: the seeded run *)

Section Seeded.

Variable rng_state : Type.
Variable seed : Z -> rng_state.
Variable random_sample : rng_state -> Q * rng_state.

(** The generator's contract: a draw lies in [[0, 1)]. *)
Hypothesis random_sample_range :
  forall st, 0 <= fst (random_sample st) /\ fst (random_sample st) < 1.

Lemma uniform_length (low high : Q) (size : nat) :
  forall st, length (fst (uniform rng_state random_sample low high size st)) = size.
Proof.
  induction size as [|size IH]; intros st; cbn [uniform]; [reflexivity|].
  destruct (random_sample st) as [u st1].
  specialize (IH st1).
  destruct (uniform rng_state random_sample low high size st1) as [rest st2].
  cbn in *. now rewrite IH.
Qed.

Lemma uniform_range (low high : Q) (size : nat) :
  low < high ->
  forall st,
    Forall (fun x => low <= x /\ x < high)
           (fst (uniform rng_state random_sample low high size st)).
Proof.
  intros Hlh. induction size as [|size IH]; intros st; cbn [uniform].
  - constructor.
  - pose proof (random_sample_range st) as Hu.
    destruct (random_sample st) as [u st1]. cbn [fst] in Hu.
    specialize (IH st1).
    destruct (uniform rng_state random_sample low high size st1) as [rest st2].
    cbn [fst] in *. constructor; [|assumption].
    split; nra.
Qed.

End Seeded.

(** The script, with the two draws named. *)
Lemma script_draws (rng_state : Type) (seed : Z -> rng_state)
      (random_sample : rng_state -> Q * rng_state)
      (irr : list Q -> irr_result) (st : rng_state) :
  let draw1 := uniform rng_state random_sample 10000 50000 100 (seed 42%Z) in
  let draw2 := uniform rng_state random_sample 0.05 0.15 100 (snd draw1) in
  let principal := total_principal (fst draw1) in
  let cash := total_cash 100 36 (fst draw1) (fst draw2) in
  script rng_state seed random_sample irr st
  = (mk_report (fst draw1) (fst draw2)
               (portfolio_cashflow 100 36 (fst draw1) (fst draw2))
               principal cash
               (senior_investment principal, senior_total_cash cash,
                calculate_irr irr (senior_cf 36 cash)
                              (senior_investment principal))
               (mezzanine_investment principal, mezzanine_total_cash cash,
                calculate_irr irr (mezzanine_cf 36 cash)
                              (mezzanine_investment principal))
               (equity_investment principal, equity_total_cash cash,
                calculate_irr irr (equity_cf 36 cash)
                              (equity_investment principal)),
     snd draw2).
Proof.
  cbv zeta. unfold script, num_loans, term.
  destruct (uniform rng_state random_sample 10000 50000 100 (seed 42%Z))
    as [loan_amounts st2].
  cbv beta iota delta [fst snd].
  destruct (uniform rng_state random_sample 0.05 0.15 100 st2)
    as [interest_rates st3].
  reflexivity.
Qed.

(** C9. The script seeds the generator with 42 before it draws: whatever
    state the generator is in when a run starts, the run draws the same
    100 principals, each in [[10000, 50000)], and the same 100 annual
    rates, each in [[0.05, 0.15)], and reports the same totals, tranche
    figures and IRRs, all computed from those draws. *)
Theorem script_deterministic
        (rng_state : Type) (seed : Z -> rng_state)
        (random_sample : rng_state -> Q * rng_state)
        (irr : list Q -> irr_result) :
  (forall st, 0 <= fst (random_sample st) /\ fst (random_sample st) < 1) ->
  (forall st st',
      script rng_state seed random_sample irr st
      = script rng_state seed random_sample irr st') /\
  (forall st,
      let rep := fst (script rng_state seed random_sample irr st) in
      let draw1 := uniform rng_state random_sample 10000 50000 100 (seed 42%Z) in
      let draw2 := uniform rng_state random_sample 0.05 0.15 100 (snd draw1) in
      drawn_loan_amounts rep = fst draw1 /\
      drawn_interest_rates rep = fst draw2 /\
      length (drawn_loan_amounts rep) = 100%nat /\
      length (drawn_interest_rates rep) = 100%nat /\
      Forall (fun x => 10000 <= x /\ x < 50000) (drawn_loan_amounts rep) /\
      Forall (fun x => 0.05 <= x /\ x < 0.15) (drawn_interest_rates rep) /\
      report_total_principal rep = total_principal (drawn_loan_amounts rep) /\
      report_total_cash rep
      = total_cash 100 36 (drawn_loan_amounts rep) (drawn_interest_rates rep) /\
      report_portfolio_cashflow rep
      = portfolio_cashflow 100 36 (drawn_loan_amounts rep)
                           (drawn_interest_rates rep) /\
      report_senior rep
      = (senior_investment (report_total_principal rep),
         senior_total_cash (report_total_cash rep),
         calculate_irr irr (senior_cf 36 (report_total_cash rep))
                       (senior_investment (report_total_principal rep))) /\
      report_mezzanine rep
      = (mezzanine_investment (report_total_principal rep),
         mezzanine_total_cash (report_total_cash rep),
         calculate_irr irr (mezzanine_cf 36 (report_total_cash rep))
                       (mezzanine_investment (report_total_principal rep))) /\
      report_equity rep
      = (equity_investment (report_total_principal rep),
         equity_total_cash (report_total_cash rep),
         calculate_irr irr (equity_cf 36 (report_total_cash rep))
                       (equity_investment (report_total_principal rep)))).
Proof.
  intros Hrange. split.
  - intros st st'. now rewrite !script_draws.
  - intros st rep draw1 draw2. subst rep.
    rewrite script_draws. fold draw1. fold draw2.
    cbv beta iota zeta
        delta [fst drawn_loan_amounts drawn_interest_rates
               report_portfolio_cashflow report_total_principal
               report_total_cash report_senior report_mezzanine report_equity].
    repeat split.
    + apply uniform_length.
    + apply uniform_length.
    + apply uniform_range; [assumption | reflexivity].
    + apply uniform_range; [assumption | reflexivity].
Qed.

Lemma lcg_sample_range (st : Z) :
  0 <= fst (lcg_sample st) /\ fst (lcg_sample st) < 1.
Proof.
  unfold lcg_sample. cbv zeta. cbn [fst].
  pose proof (Z.mod_pos_bound (1103515245 * st + 12345) 2147483648
                ltac:(reflexivity)) as Hb.
  unfold Qle, Qlt. cbn [Qnum Qden]. lia.
Qed.

(** Two runs with the congruential generator, started in different
    states. *)
Lemma script_deterministic_witness :
  script Z lcg_seed lcg_sample irr_one_period 0%Z
  = script Z lcg_seed lcg_sample irr_one_period 2024%Z /\
  length (drawn_loan_amounts
            (fst (script Z lcg_seed lcg_sample irr_one_period 0%Z))) = 100%nat /\
  Forall (fun x => 10000 <= x /\ x < 50000)
         (drawn_loan_amounts
            (fst (script Z lcg_seed lcg_sample irr_one_period 0%Z))).
Proof.
  destruct (script_deterministic Z lcg_seed lcg_sample irr_one_period
              lcg_sample_range) as [Hsame Hdraws].
  destruct (Hdraws 0%Z) as (_ & _ & Hlen & _ & Hrange & _).
  split; [apply Hsame|]. split; [exact Hlen | exact Hrange].
Defined.

(** * Further properties of the loop *)

(** ** What is repaid and what is left *)

Lemma month_balance_step (r balance pay : Q) :
  balance_after (month r balance pay)
  == balance - principal_payment (month r balance pay).
Proof. month_branches r balance pay; ring. Qed.

Lemma amortize_conservation (r : Q) (term : nat) :
  forall balance pay,
    Qsum (map principal_payment (amortize r term balance pay))
    + fst (final_state r term balance pay) == balance.
Proof.
  induction term as [|term IH]; intros balance pay;
    cbn [amortize final_state map Qsum fst].
  - ring.
  - cbv zeta.
    specialize (IH (balance_after (month r balance pay))
                   (pay_after (month r balance pay))).
    pose proof (month_balance_step r balance pay). lra.
Qed.

Lemma final_state_balance_nonneg (r : Q) (term : nat) :
  forall balance pay,
    0 <= balance -> 0 <= fst (final_state r term balance pay).
Proof.
  induction term as [|term IH]; intros balance pay Hb; cbn [final_state fst].
  - assumption.
  - cbv zeta. apply IH. apply month_balance_nonneg.
Qed.

(** X1. Started on a balance that is not negative, with any payment and
    any rate, the loop repays exactly what the balance falls by: the
    principal components and the balance left add up to the starting
    balance, the balance left is not negative, and so the principal
    collected never exceeds the starting balance. *)
Theorem principal_repaid_is_balance_drop (r : Q) (term : nat) (balance pay : Q) :
  0 <= balance ->
  Qsum (map principal_payment (amortize r term balance pay))
  + fst (final_state r term balance pay) == balance /\
  0 <= fst (final_state r term balance pay) /\
  Qsum (map principal_payment (amortize r term balance pay)) <= balance.
Proof.
  intros Hb.
  pose proof (amortize_conservation r term balance pay) as Hc.
  pose proof (final_state_balance_nonneg r term balance pay Hb) as Hn.
  repeat split; [assumption | assumption | lra].
Qed.

Lemma principal_repaid_is_balance_drop_witness :
  Qsum (map principal_payment (amortize (1 # 10) 4 100 80))
  + fst (final_state (1 # 10) 4 100 80) == 100 /\
  0 <= fst (final_state (1 # 10) 4 100 80) /\
  Qsum (map principal_payment (amortize (1 # 10) 4 100 80)) <= 100.
Proof.
  apply (principal_repaid_is_balance_drop (1 # 10) 4 100 80). discriminate.
Defined.

(** ** The rows of a scheduled loan *)

(** Row [k] of a loop on schedule: what it starts with, what it splits
    the payment into and what it leaves. *)
Lemma amortize_on_schedule_nth (r pay : Q) (j : nat) :
  0 < r -> 0 <= pay ->
  forall balance k row,
    on_schedule r pay j balance ->
    nth_error (amortize r j balance pay) k = Some row ->
    (k < j)%nat /\
    on_schedule r pay (j - k) (balance_before row) /\
    on_schedule r pay (j - k - 1) (balance_after row) /\
    cashflow row = pay /\
    principal_payment row == pay * discount r (j - k) /\
    interest_payment row == pay * (1 - discount r (j - k)).
Proof.
  intros Hr Hpay. induction j as [|j IH]; intros balance k row Hs Hn.
  - destruct k; discriminate.
  - destruct (month_on_schedule r pay j balance Hr Hpay Hs)
      as (_ & Hcf & Hpa & Hpp & _ & Hnext).
    cbn [amortize] in Hn. cbv zeta in Hn. destruct k as [|k].
    + cbn [nth_error] in Hn. injection Hn as <-.
      destruct (month_before r balance pay) as [Hbb _].
      replace (S j - 0)%nat with (S j) by lia.
      replace (S j - 1)%nat with j by lia.
      rewrite Hbb. repeat split; try assumption; [lia|].
      pose proof (month_cashflow_split r balance pay) as Hsplit.
      rewrite Hcf in Hsplit. lra.
    + cbn [nth_error] in Hn. rewrite Hpa in Hn.
      destruct (IH _ _ _ Hnext Hn) as (Hk & H1 & H2 & H3 & H4 & H5).
      replace (S j - S k)%nat with (j - k)%nat by lia.
      repeat split; try assumption. lia.
Qed.

Lemma on_schedule_present_value (r pay : Q) (j : nat) (balance : Q) :
  0 < r -> on_schedule r pay j balance -> balance == present_value r pay j.
Proof.
  intros Hr Hs. unfold on_schedule in Hs.
  rewrite <- (present_value_closed r pay j) in Hs by lra.
  apply Qmult_inj_r in Hs; [assumption | lra].
Qed.

(** X2. In the schedule of a loan with positive principal and annual
    rate, the balance a month starts with is the value today of the
    payments still to come, that month's included, and the balance it
    leaves is the value of those after it. *)
Theorem balance_is_value_of_remaining_payments
        (principal annual_rate : Q) (term k : nat) (row : month_row) :
  0 < principal -> 0 < annual_rate ->
  nth_error (loan_rows principal annual_rate term) k = Some row ->
  balance_before row
  == present_value (annual_rate / 12)
                   (monthly_payment principal annual_rate term) (term - k) /\
  balance_after row
  == present_value (annual_rate / 12)
                   (monthly_payment principal annual_rate term) (term - k - 1).
Proof.
  intros Hp Ha Hn.
  assert (Ht : (0 < term)%nat).
  { destruct term; [destruct k; discriminate | lia]. }
  assert (Hr : 0 < annual_rate / 12) by (apply Qlt_shift_div_l; lra).
  pose proof (monthly_payment_pos principal annual_rate term Hp Ha Ht) as Hpay.
  pose proof (monthly_payment_on_schedule principal annual_rate term Ha Ht) as Hs.
  destruct (amortize_on_schedule_nth _ _ term Hr (Qlt_le_weak _ _ Hpay)
              _ _ _ Hs Hn) as (_ & H1 & H2 & _).
  split; apply on_schedule_present_value; assumption.
Qed.

Lemma balance_is_value_of_remaining_payments_witness :
  balance_before (month (0.12 / 12) 1200 (monthly_payment 1200 0.12 2))
  == present_value (0.12 / 12) (monthly_payment 1200 0.12 2) (2 - 0) /\
  balance_after (month (0.12 / 12) 1200 (monthly_payment 1200 0.12 2))
  == present_value (0.12 / 12) (monthly_payment 1200 0.12 2) (2 - 0 - 1).
Proof.
  apply (balance_is_value_of_remaining_payments 1200 0.12 2 0);
    reflexivity.
Defined.

(** ** A payment that does not cover the interest *)

(** X5. The loop does not guard against a payment below the interest.
    Started at a positive rate on a balance whose interest exceeds the
    payment, no month is adjusted, every month records the payment with
    a negative principal component, and the balance grows every month,
    so the balance left is at least the starting one. *)
Theorem balance_grows_when_interest_not_covered
        (r pay : Q) (term : nat) (balance : Q) :
  0 < r -> 0 <= balance -> pay < balance * r ->
  Forall (fun row =>
            adjusted row = false /\ cashflow row = pay /\
            principal_payment row < 0 /\
            balance_before row < balance_after row)
         (amortize r term balance pay) /\
  balance <= fst (final_state r term balance pay).
Proof.
  intros Hr. revert balance. induction term as [|term IH]; intros balance Hb Hlt;
    cbn [amortize final_state fst].
  - split; [constructor | lra].
  - cbv zeta.
    destruct (month_not_adjusted r balance pay) as (Hadj & Hpp & Hc & Hpa & Hba);
      [lra|].
    destruct (month_before r balance pay) as [Hbb _].
    destruct (IH (balance_after (month r balance pay))) as [Hall Hfin].
    + rewrite Hba. lra.
    + rewrite Hba. nra.
    + rewrite Hpa. split.
      * constructor; [|assumption].
        rewrite Hpp, Hbb, Hba. repeat split; try assumption; lra.
      * assert (Hge : balance <= balance_after (month r balance pay))
          by (rewrite Hba; lra).
        lra.
Qed.

Lemma balance_grows_when_interest_not_covered_witness :
  Forall (fun row =>
            adjusted row = false /\ cashflow row = 5 /\
            principal_payment row < 0 /\
            balance_before row < balance_after row)
         (amortize (1 # 10) 3 100 5) /\
  100 <= fst (final_state (1 # 10) 3 100 5).
Proof.
  apply (balance_grows_when_interest_not_covered (1 # 10) 5 3 100);
    [reflexivity | discriminate | reflexivity].
Defined.

(** ** Bounds on the scheduled payment *)

Lemma present_value_below_total (r P : Q) (months : nat) :
  0 < r -> 0 < P -> (0 < months)%nat ->
  present_value r P months < inject_Z (Z.of_nat months) * P.
Proof.
  intros Hr HP Hm. destruct months as [|m]; [lia|]. clear Hm.
  induction m as [|m IH].
  - cbn [present_value]. pose proof (discount_lt_1 r 1 Hr (le_n 1)) as Hd.
    change (inject_Z (Z.of_nat 1)) with 1.
    assert (P * discount r 1 < P) by nra. lra.
  - change (present_value r P (S (S m)))
      with (present_value r P (S m) + P * discount r (S (S m))).
    pose proof (discount_lt_1 r (S (S m)) Hr ltac:(lia)) as Hd.
    assert (P * discount r (S (S m)) < P) by nra.
    rewrite (Nat2Z.inj_succ (S m)). unfold Z.succ. rewrite inject_Z_plus.
    change (inject_Z 1) with 1. lra.
Qed.

(** X6. For positive principal and annual rate and at least one month,
    the scheduled payment exceeds the first month's interest, exceeds an
    equal share [principal / months] of the principal, and is at most
    the principal with one month's interest, which it equals when the
    loan lasts one month. *)
Theorem monthly_payment_bounds (principal annual_rate : Q) (months : nat) :
  0 < principal -> 0 < annual_rate -> (0 < months)%nat ->
  principal * (annual_rate / 12) < monthly_payment principal annual_rate months /\
  principal / inject_Z (Z.of_nat months)
  < monthly_payment principal annual_rate months /\
  monthly_payment principal annual_rate months
  <= principal * (1 + annual_rate / 12) /\
  monthly_payment principal annual_rate 1 == principal * (1 + annual_rate / 12).
Proof.
  intros Hp Ha Hm.
  assert (Hr : 0 < annual_rate / 12) by (apply Qlt_shift_div_l; lra).
  set (r := annual_rate / 12) in *.
  assert (Hq : 0 < 1 + r) by lra.
  pose proof (monthly_payment_pos principal annual_rate months Hp Ha Hm) as Hpay.
  pose proof (monthly_payment_on_schedule principal annual_rate months Ha Hm) as Hs.
  unfold on_schedule in Hs. fold r in Hs.
  set (pay := monthly_payment principal annual_rate months) in *.
  pose proof (discount_pos r months Hq) as Hd0.
  pose proof (discount_lt_1 r months Hr Hm) as Hd1.
  assert (Hone : discount r 1 * (1 + r) == 1)
    by (rewrite discount_S by assumption; apply discount_0).
  assert (Hmono : discount r months <= discount r 1).
  { clear - Hr Hq Hm. destruct months as [|m]; [lia|].
    induction m as [|m IH]; [lra|].
    pose proof (discount_S r (S m) Hq) as HS.
    pose proof (discount_pos r (S (S m)) Hq) as Hp.
    assert (discount r (S m) <= discount r 1) by (apply IH; lia). nra. }
  split; [|split; [|split]].
  - assert (H : pay * discount r months > 0) by (apply Qmult_lt_0_compat; assumption).
    nra.
  - pose proof (present_value_closed r pay months Hq) as Hpv.
    assert (Hpv' : present_value r pay months == principal).
    { rewrite <- Hs in Hpv. apply Qmult_inj_r in Hpv; [assumption | lra]. }
    pose proof (present_value_below_total r pay months Hr Hpay Hm) as Hlt.
    assert (Hn : 0 < inject_Z (Z.of_nat months)) by (unfold Qlt; cbn; lia).
    apply Qlt_shift_div_r; [assumption|]. lra.
  - assert (H1 : pay * (1 - discount r 1) <= principal * r).
    { rewrite Hs. apply Qmult_le_l; [assumption | lra]. }
    assert (H2 : pay * (1 - discount r 1) * (1 + r) <= principal * r * (1 + r))
      by (apply Qmult_le_compat_r; lra).
    assert (H3 : pay * (discount r 1 * (1 + r)) == pay) by (rewrite Hone; ring).
    assert (H4 : pay * r <= principal * (1 + r) * r) by lra.
    apply Qmult_le_r in H4; assumption.
  - pose proof (monthly_payment_on_schedule principal annual_rate 1 Ha (le_n 1)) as Hs1.
    unfold on_schedule in Hs1. fold r in Hs1.
    set (pay1 := monthly_payment principal annual_rate 1) in *.
    assert (H2 : pay1 * (1 - discount r 1) * (1 + r) == principal * r * (1 + r))
      by (rewrite Hs1; ring).
    assert (H3 : pay1 * (discount r 1 * (1 + r)) == pay1) by (rewrite Hone; ring).
    assert (H4 : pay1 * r == principal * (1 + r) * r) by lra.
    apply Qmult_inj_r in H4; [assumption | lra].
Qed.

Lemma monthly_payment_bounds_witness :
  10000 * (0.12 / 12) < monthly_payment 10000 0.12 12 /\
  10000 / inject_Z (Z.of_nat 12) < monthly_payment 10000 0.12 12 /\
  monthly_payment 10000 0.12 12 <= 10000 * (1 + 0.12 / 12) /\
  monthly_payment 10000 0.12 1 == 10000 * (1 + 0.12 / 12).
Proof.
  apply (monthly_payment_bounds 10000 0.12 12); [reflexivity | reflexivity | lia].
Defined.

Lemma discount_decreasing (r : Q) (j : nat) :
  0 < r -> discount r (S j) < discount r j.
Proof.
  intros Hr. assert (Hq : 0 < 1 + r) by lra.
  pose proof (discount_S r j Hq) as HS.
  pose proof (discount_pos r (S j) Hq) as Hp. nra.
Qed.

(** X7. For positive principal and annual rate, one more month lowers
    the scheduled payment. *)
Theorem monthly_payment_falls_with_term
        (principal annual_rate : Q) (months : nat) :
  0 < principal -> 0 < annual_rate -> (0 < months)%nat ->
  monthly_payment principal annual_rate (S months)
  < monthly_payment principal annual_rate months.
Proof.
  intros Hp Ha Hm.
  assert (Hr : 0 < annual_rate / 12) by (apply Qlt_shift_div_l; lra).
  pose proof (monthly_payment_on_schedule principal annual_rate months Ha Hm) as Hs.
  pose proof (monthly_payment_on_schedule principal annual_rate (S months) Ha
                ltac:(lia)) as Hs'.
  pose proof (monthly_payment_pos principal annual_rate (S months) Hp Ha
                ltac:(lia)) as Hpay'.
  unfold on_schedule in Hs, Hs'.
  set (r := annual_rate / 12) in *.
  set (pay := monthly_payment principal annual_rate months) in *.
  set (pay' := monthly_payment principal annual_rate (S months)) in *.
  pose proof (discount_decreasing r months Hr) as Hd.
  pose proof (discount_lt_1 r months Hr Hm) as Hd1.
  assert (H : pay' * (1 - discount r months) < pay * (1 - discount r months)).
  { rewrite <- Hs, Hs'. apply Qmult_lt_l; [assumption | lra]. }
  apply Qmult_lt_r in H; [assumption | lra].
Qed.

Lemma monthly_payment_falls_with_term_witness :
  monthly_payment 10000 0.12 (S 12) < monthly_payment 10000 0.12 12.
Proof.
  apply (monthly_payment_falls_with_term 10000 0.12 12);
    [reflexivity | reflexivity | lia].
Defined.

(** ** Scheduled loans on exact rationals

    On exact rationals the scheduled payment ties the strict test of
    the last month, so the exact schedule repeats the payment; the
    lemmas of this part serve the comparison of cash and principal. *)

Lemma map_cashflow_level (pay : Q) (rows : list month_row) :
  Forall (fun row => cashflow row = pay) rows ->
  map cashflow rows = repeat pay (length rows).
Proof.
  induction 1 as [|row rows Hrow _ IH]; cbn [map length repeat];
    [reflexivity|]. now rewrite Hrow, IH.
Qed.

Lemma loan_schedule_level (principal annual_rate : Q) (term : nat) :
  0 < principal -> 0 < annual_rate ->
  loan_schedule principal annual_rate term
  = repeat (monthly_payment principal annual_rate term) term.
Proof.
  intros Hp Ha. destruct term as [|term']; [reflexivity|].
  set (term := S term').
  assert (Ht : (0 < term)%nat) by (unfold term; lia).
  assert (Hr : 0 < annual_rate / 12) by (apply Qlt_shift_div_l; lra).
  pose proof (monthly_payment_pos principal annual_rate term Hp Ha Ht) as Hpay.
  pose proof (monthly_payment_on_schedule principal annual_rate term Ha Ht) as Hs.
  destruct (amortize_on_schedule _ _ term Hr (Qlt_le_weak _ _ Hpay) _ Hs)
    as (Hall & _ & _).
  unfold loan_schedule, loan_rows.
  rewrite (map_cashflow_level (monthly_payment principal annual_rate term)).
  - now rewrite amortize_length.
  - revert Hall. apply Forall_impl. now intros row (_ & Hc & _).
Qed.

Lemma principal_below_total_paid (principal annual_rate : Q) (term : nat) :
  0 < principal -> 0 < annual_rate -> (0 < term)%nat ->
  principal
  < inject_Z (Z.of_nat term) * monthly_payment principal annual_rate term.
Proof.
  intros Hp Ha Ht.
  assert (Hr : 0 < annual_rate / 12) by (apply Qlt_shift_div_l; lra).
  pose proof (monthly_payment_pos principal annual_rate term Hp Ha Ht) as Hpay.
  pose proof (monthly_payment_on_schedule principal annual_rate term Ha Ht) as Hs.
  apply on_schedule_present_value in Hs; [|assumption].
  rewrite Hs at 1. now apply present_value_below_total.
Qed.

(** ** The pool *)

Lemma Qsum_map_ext {A : Type} (g h : A -> Q) (l : list A) :
  (forall x, In x l -> g x == h x) -> Qsum (map g l) == Qsum (map h l).
Proof.
  induction l as [|x l IH]; intros H; cbn [map Qsum]; [reflexivity|].
  rewrite (H x (or_introl eq_refl)), IH; [reflexivity|].
  intros y Hy. apply H. now right.
Qed.

Lemma Qsum_map_lt {A : Type} (g h : A -> Q) (l : list A) :
  l <> [] -> (forall x, In x l -> g x < h x) ->
  Qsum (map g l) < Qsum (map h l).
Proof.
  induction l as [|x l IH]; intros Hne H; [congruence|]. cbn [map Qsum].
  pose proof (H x (or_introl eq_refl)) as Hx.
  destruct l as [|y l'].
  - cbn [map Qsum]. lra.
  - assert (Qsum (map g (y :: l')) < Qsum (map h (y :: l'))).
    { apply IH; [discriminate|]. intros z Hz. apply H. now right. }
    lra.
Qed.

Lemma Qsum_map_scale {A : Type} (c : Q) (g : A -> Q) (l : list A) :
  Qsum (map (fun x => c * g x) l) == c * Qsum (map g l).
Proof.
  induction l as [|x l IH]; cbn [map Qsum]; [ring|]. rewrite IH. ring.
Qed.

Lemma Qsum_nth_seq (l : list Q) :
  Qsum l == Qsum (map (fun i => nth i l 0) (seq 0 (length l))).
Proof.
  induction l as [|x l IH]; [reflexivity|].
  cbn [length seq map Qsum nth]. rewrite <- seq_shift, map_map.
  cbn [nth]. now rewrite <- IH.
Qed.

Lemma nth_repeat_lt {A : Type} (x d : A) (n m : nat) :
  (m < n)%nat -> nth m (repeat x n) d = x.
Proof.
  revert m. induction n as [|n IH]; intros m Hm; [lia|].
  destruct m as [|m]; [reflexivity|]. cbn. apply IH. lia.
Qed.

Lemma nth_map_seq {A : Type} (f : nat -> A) (n i : nat) (d : A) :
  (i < n)%nat -> nth i (map f (seq 0 n)) d = f i.
Proof.
  intros Hi. rewrite (nth_indep _ d (f 0%nat)) by (now rewrite length_map, length_seq).
  rewrite map_nth. now rewrite seq_nth.
Qed.

Lemma valid_pool_nth (num_loans : nat) (loan_amounts interest_rates : list Q) (i : nat) :
  valid_pool num_loans loan_amounts interest_rates -> (i < num_loans)%nat ->
  0 < nth i loan_amounts 0 /\ 0 < nth i interest_rates 0.
Proof.
  intros (L1 & L2 & P1 & P2) Hi.
  rewrite Forall_forall in P1, P2.
  split; [apply P1 | apply P2]; apply nth_In; lia.
Qed.

(** On exact rationals every row of [loan_cashflows] of a valid pool
    repeats the loan's scheduled payment. *)
Lemma loan_cashflows_level (num_loans term : nat) (loan_amounts interest_rates : list Q) :
  valid_pool num_loans loan_amounts interest_rates ->
  loan_cashflows num_loans term loan_amounts interest_rates
  = map (fun i => repeat (nth i (payments num_loans term loan_amounts
                                          interest_rates) 0) term)
        (seq 0 num_loans).
Proof.
  intros Hv. unfold loan_cashflows. apply map_ext_in. intros i Hi.
  apply in_seq in Hi. cbv zeta.
  destruct (valid_pool_nth _ _ _ i Hv) as [Hp Ha]; [lia|].
  assert (Hpay : nth i (payments num_loans term loan_amounts interest_rates) 0
                 = monthly_payment (nth i loan_amounts 0)
                                   (nth i interest_rates 0) term).
  { unfold payments.
    apply (nth_map_seq (fun i => monthly_payment (nth i loan_amounts 0)
                                                 (nth i interest_rates 0) term)).
    lia. }
  rewrite Hpay.
  exact (loan_schedule_level (nth i loan_amounts 0) (nth i interest_rates 0)
                             term Hp Ha).
Qed.

Lemma payments_as_map (num_loans term : nat) (loan_amounts interest_rates : list Q) :
  map (fun i => nth i (payments num_loans term loan_amounts interest_rates) 0)
      (seq 0 num_loans)
  = payments num_loans term loan_amounts interest_rates.
Proof.
  unfold payments at 2. apply map_ext_in. intros i Hi. apply in_seq in Hi.
  unfold payments.
  apply (nth_map_seq (fun i => monthly_payment (nth i loan_amounts 0)
                                               (nth i interest_rates 0) term)).
  lia.
Qed.

(** The exact portfolio series of a valid pool and its sum. *)
Lemma pool_flat (num_loans term : nat) (loan_amounts interest_rates : list Q) :
  valid_pool num_loans loan_amounts interest_rates ->
  (forall m, (m < term)%nat ->
             nth m (portfolio_cashflow num_loans term loan_amounts interest_rates) 0
             == Qsum (payments num_loans term loan_amounts interest_rates)) /\
  total_cash num_loans term loan_amounts interest_rates
  == inject_Z (Z.of_nat term)
     * Qsum (payments num_loans term loan_amounts interest_rates).
Proof.
  intros Hv.
  pose proof (loan_cashflows_level num_loans term loan_amounts interest_rates Hv)
    as Hrows.
  destruct (fold_vadd (loan_cashflows num_loans term loan_amounts interest_rates)
                      (repeat 0 term)) as (_ & H2 & H3).
  { rewrite repeat_length. apply loan_cashflows_width. }
  split.
  - intros m Hm. unfold portfolio_cashflow, sum_axis0.
    rewrite H3, nth_repeat_0, Hrows, map_map, Qplus_0_l.
    transitivity
      (Qsum (map (fun i => nth i (payments num_loans term loan_amounts
                                           interest_rates) 0)
                 (seq 0 num_loans))).
    + apply Qsum_map_ext. intros i _. now rewrite nth_repeat_lt.
    + now rewrite payments_as_map.
  - unfold total_cash, portfolio_cashflow, sum_axis0.
    rewrite H2, Qsum_repeat_0, Hrows, map_map, Qplus_0_l.
    transitivity
      (inject_Z (Z.of_nat term)
       * Qsum (map (fun i => nth i (payments num_loans term loan_amounts
                                             interest_rates) 0)
                   (seq 0 num_loans))).
    + rewrite <- Qsum_map_scale. apply Qsum_map_ext. intros i _.
      apply Qsum_repeat.
    + now rewrite payments_as_map.
Qed.

(** Validity of a pool given by its entries. *)
Ltac valid_pool_by_evaluation :=
  repeat split; try reflexivity; repeat constructor.

Lemma pool_cash_exceeds_principal
        (num_loans term : nat) (loan_amounts interest_rates : list Q) :
  valid_pool num_loans loan_amounts interest_rates ->
  (0 < num_loans)%nat -> (0 < term)%nat ->
  total_principal loan_amounts
  < total_cash num_loans term loan_amounts interest_rates.
Proof.
  intros Hv Hn Ht.
  destruct (pool_flat num_loans term loan_amounts interest_rates Hv) as [_ Hcash].
  rewrite Hcash. unfold total_principal.
  rewrite <- (payments_as_map num_loans term loan_amounts interest_rates).
  rewrite <- Qsum_map_scale, Qsum_nth_seq.
  destruct Hv as (L1 & L2 & P1 & P2). rewrite L1.
  apply Qsum_map_lt.
  - destruct num_loans; [lia | discriminate].
  - intros i Hi. apply in_seq in Hi.
    destruct (valid_pool_nth num_loans loan_amounts interest_rates i) as [Hp Ha];
      [repeat split; assumption | lia |].
    unfold payments.
    rewrite (nth_map_seq (fun i => monthly_payment (nth i loan_amounts 0)
                                                   (nth i interest_rates 0) term))
      by lia.
    now apply principal_below_total_paid.
Qed.

Lemma Qsum_nonneg (l : list Q) :
  Forall (fun x => 0 < x) l -> 0 <= Qsum l.
Proof.
  induction 1 as [|x l Hx _ IH]; cbn [Qsum]; lra.
Qed.

Lemma Qsum_positive (l : list Q) :
  l <> [] -> Forall (fun x => 0 < x) l -> 0 < Qsum l.
Proof.
  intros Hne Hall. destruct Hall as [|x l Hx Hl]; [congruence|].
  cbn [Qsum]. pose proof (Qsum_nonneg l Hl). lra.
Qed.

(** X10. For a valid pool of at least one loan over at least one month,
    the principal lent is positive and the cash collected exceeds it,
    as the script's comment on the allocation says. *)
Theorem total_cash_exceeds_total_principal
        (num_loans term : nat) (loan_amounts interest_rates : list Q) :
  valid_pool num_loans loan_amounts interest_rates ->
  (0 < num_loans)%nat -> (0 < term)%nat ->
  0 < total_principal loan_amounts /\
  total_principal loan_amounts
  < total_cash num_loans term loan_amounts interest_rates.
Proof.
  intros Hv Hn Ht. split.
  - destruct Hv as (L1 & _ & P1 & _). apply Qsum_positive; [|assumption].
    intros ->. cbn in L1. lia.
  - now apply pool_cash_exceeds_principal.
Qed.

Lemma total_cash_exceeds_total_principal_witness :
  0 < total_principal [1200; 2400] /\
  total_principal [1200; 2400] < total_cash 2 2 [1200; 2400] [0.12; 0.06].
Proof.
  apply (total_cash_exceeds_total_principal 2 2 [1200; 2400] [0.12; 0.06]);
    [valid_pool_by_evaluation | lia | lia].
Defined.

(** ** The payments recorded never grow *)

Lemma amortize_cashflow_range (r : Q) (term : nat) :
  0 <= r ->
  forall balance pay,
    0 <= balance -> 0 <= pay ->
    Forall (fun row =>
              0 <= interest_payment row /\
              0 <= cashflow row /\ cashflow row <= pay)
           (amortize r term balance pay).
Proof.
  intros Hr. induction term as [|term IH]; intros balance pay Hb Hp;
    cbn [amortize]; constructor.
  - destruct (month_pay r balance pay) as [Hle Hc].
    pose proof (month_pay_nonneg r balance pay Hr Hb Hp) as Hnn.
    rewrite Hc. repeat split; try assumption.
    month_branches r balance pay; nra.
  - eapply Forall_impl;
      [|apply (IH _ _ (month_balance_nonneg r balance pay)
                  (month_pay_nonneg r balance pay Hr Hb Hp))].
    cbn beta. intros row (H1 & H2 & H3).
    destruct (month_pay r balance pay) as [Hle _].
    repeat split; try assumption. lra.
Qed.

Lemma amortize_cashflow_sorted (r : Q) (term : nat) :
  forall balance pay pre row next post,
    amortize r term balance pay = pre ++ row :: next :: post ->
    cashflow next <= cashflow row.
Proof.
  induction term as [|term IH]; intros balance pay pre row next post Heq.
  - destruct pre; discriminate.
  - cbn [amortize] in Heq. cbv zeta in Heq. destruct pre as [|row0 pre].
    + cbn [app] in Heq. injection Heq as Hrow Hrest. subst row.
      destruct term as [|term']; [discriminate|].
      cbn [amortize] in Hrest. cbv zeta in Hrest. injection Hrest as Hnext _.
      subst next.
      destruct (month_pay r balance pay) as [_ Hc]. rewrite Hc.
      destruct (month_pay r (balance_after (month r balance pay))
                          (pay_after (month r balance pay))) as [Hle Hc'].
      now rewrite Hc'.
    + cbn [app] in Heq. injection Heq as _ Hrest.
      eapply IH; eassumption.
Qed.

(** X15. Started at a rate, on a balance and with a payment that are
    not negative, the loop records in every month an amount between 0
    and the payment it was started with, with an interest component
    that is not negative; and on any input the amount recorded never
    grows from one month to the next. *)
Theorem recorded_payments_never_grow (r : Q) (term : nat) (balance pay : Q) :
  (0 <= r -> 0 <= balance -> 0 <= pay ->
   Forall (fun row =>
             0 <= interest_payment row /\
             0 <= cashflow row /\ cashflow row <= pay)
          (amortize r term balance pay)) /\
  (forall pre row next post,
      amortize r term balance pay = pre ++ row :: next :: post ->
      cashflow next <= cashflow row).
Proof.
  split.
  - intros Hr Hb Hp. now apply amortize_cashflow_range.
  - apply amortize_cashflow_sorted.
Qed.

Lemma recorded_payments_never_grow_witness :
  Forall (fun row =>
            0 <= interest_payment row /\
            0 <= cashflow row /\ cashflow row <= 80)
         (amortize (1 # 10) 4 100 80) /\
  cashflow overpaid_second <= cashflow overpaid_first.
Proof.
  destruct (recorded_payments_never_grow (1 # 10) 4 100 80) as [Hrange Hsorted].
  split.
  - apply Hrange; discriminate.
  - apply (Hsorted [] overpaid_first overpaid_second overpaid_rest).
    reflexivity.
Defined.

(** * Further properties of the binary64 loop *)

(** ** Not-a-number payments *)

Lemma SFeqb_refl_not_nan (f : SpecFloat.spec_float) :
  f <> S754_nan -> SFeqb f f = true.
Proof.
  intros Hf. destruct f as [s | s | | s m e].
  - reflexivity.
  - destruct s; reflexivity.
  - congruence.
  - unfold SFeqb, SFcompare.
    destruct s; rewrite Z.compare_refl, Pos.compare_cont_refl; reflexivity.
Qed.

Lemma is_nan_spec (x : float) :
  is_nan x = true <-> Prim2SF x = S754_nan.
Proof.
  unfold is_nan. rewrite FloatAxioms.eqb_spec. split.
  - intros H. destruct (Prim2SF x) eqn:E; try reflexivity;
      rewrite SFeqb_refl_not_nan in H by discriminate; discriminate.
  - intros ->. reflexivity.
Qed.

Lemma sub_nan_l (x y : float) :
  is_nan x = true -> is_nan (x - y)%float = true.
Proof.
  rewrite !is_nan_spec, sub_spec. intros ->.
  destruct (Prim2SF y); reflexivity.
Qed.

Lemma sub_nan_r (x y : float) :
  is_nan y = true -> is_nan (x - y)%float = true.
Proof.
  rewrite !is_nan_spec, sub_spec. intros ->.
  destruct (Prim2SF x); reflexivity.
Qed.

Lemma ltb_nan_r (x y : float) :
  is_nan y = true -> (x <? y)%float = false.
Proof.
  rewrite is_nan_spec, ltb_spec. intros ->.
  destruct (Prim2SF x); reflexivity.
Qed.

(** One turn started with a payment that is not a number: the test
    fails, the payment is recorded as it is and the balance left is not
    a number. *)
Lemma binary64_month_nan (r balance pay : float) :
  is_nan pay = true ->
  Binary64.adjusted (Binary64.month r balance pay) = false /\
  Binary64.cashflow (Binary64.month r balance pay) = pay /\
  Binary64.pay_after (Binary64.month r balance pay) = pay /\
  is_nan (Binary64.balance_after (Binary64.month r balance pay)) = true.
Proof.
  intros Hpay. unfold Binary64.month. cbv zeta.
  pose proof (sub_nan_l pay (balance * r)%float Hpay) as Hpp.
  rewrite (ltb_nan_r balance _ Hpp). cbn.
  repeat split. now apply sub_nan_r.
Qed.

Lemma binary64_amortize_nan (r : float) (term : nat) :
  forall balance pay,
    is_nan pay = true ->
    Forall (fun row =>
              Binary64.adjusted row = false /\
              Binary64.cashflow row = pay /\
              is_nan (Binary64.balance_after row) = true)
           (Binary64.amortize r term balance pay).
Proof.
  induction term as [|term IH]; intros balance pay Hpay;
    cbn [Binary64.amortize]; constructor.
  - destruct (binary64_month_nan r balance pay Hpay) as (H1 & H2 & _ & H4).
    repeat split; assumption.
  - destruct (binary64_month_nan r balance pay Hpay) as (_ & _ & H3 & _).
    rewrite H3. now apply IH.
Qed.

Lemma binary64_zero_rate_payment (principal : float) :
  is_nan (Binary64.monthly_payment 1 principal 0) = true.
Proof.
  unfold Binary64.monthly_payment. cbv zeta.
  change (0 / 12)%float with 0%float. change (1 - 1)%float with 0%float.
  rewrite is_nan_spec, div_spec, mul_spec.
  change (Prim2SF 0) with (S754_zero false).
  destruct (Prim2SF principal) as [s| s | |s m e]; reflexivity.
Qed.

(** X14. On binary64 numbers, a payment that is not a number stays in
    the loop: no month is adjusted, every month records it, and every
    balance left is not a number.  This is what an annual rate of 0
    gives, whatever the principal: the power is then 1, the scheduled
    payment is a quotient by zero that is not a number, and so is every
    entry of the schedule. *)
Theorem binary64_nan_payment_is_kept :
  (forall (r balance pay : float) (term : nat),
      is_nan pay = true ->
      Forall (fun row =>
                Binary64.adjusted row = false /\
                Binary64.cashflow row = pay /\
                is_nan (Binary64.balance_after row) = true)
             (Binary64.amortize r term balance pay)) /\
  (forall (principal : float) (term : nat),
      is_nan (Binary64.monthly_payment 1 principal 0) = true /\
      Forall (fun row =>
                Binary64.adjusted row = false /\
                is_nan (Binary64.cashflow row) = true)
             (Binary64.amortize (0 / 12) term principal
                                (Binary64.monthly_payment 1 principal 0))).
Proof.
  split.
  - intros r balance pay term Hpay. now apply binary64_amortize_nan.
  - intros principal term.
    pose proof (binary64_zero_rate_payment principal) as Hnan.
    split; [assumption|].
    pose proof (binary64_amortize_nan (0 / 12) term principal _ Hnan) as Hall.
    revert Hall. apply Forall_impl. intros row (H1 & H2 & _).
    split; [assumption|]. now rewrite H2.
Qed.

Lemma binary64_nan_payment_is_kept_witness :
  Forall (fun row =>
            Binary64.adjusted row = false /\
            Binary64.cashflow row = (0 / 0)%float /\
            is_nan (Binary64.balance_after row) = true)
         (Binary64.amortize 0.5 3 10000 (0 / 0)).
Proof.
  apply (proj1 binary64_nan_payment_is_kept 0.5%float 10000%float
               (0 / 0)%float 3%nat).
  reflexivity.
Defined.

(** ** The adjusted month on binary64 numbers *)

Lemma is_finite_spec (x : float) :
  is_finite x = true ->
  (exists s, Prim2SF x = S754_zero s) \/
  (exists s m e, Prim2SF x = S754_finite s m e).
Proof.
  unfold is_finite, is_infinity, is_nan.
  rewrite !FloatAxioms.eqb_spec, abs_spec.
  destruct (Prim2SF x) as [s | s | | s m e] eqn:E.
  - intros _. left. now exists s.
  - cbn. intros H. exfalso. revert H.
    change (Prim2SF infinity) with (S754_infinity false).
    destruct s; cbn; discriminate.
  - cbn. discriminate.
  - intros _. right. now exists s, m, e.
Qed.

(** A finite binary64 number minus itself is [+0]. *)
Lemma sub_diag_finite (x : float) :
  is_finite x = true -> (x - x)%float = 0%float.
Proof.
  intros Hx. rewrite <- (SF2Prim_Prim2SF (x - x)), sub_spec.
  destruct (is_finite_spec x Hx) as [[s ->] | (s & m & e & ->)].
  - destruct s; reflexivity.
  - unfold SF64sub, SFsub. cbv zeta. rewrite Z.sub_diag. reflexivity.
Qed.

(** X16. On binary64 numbers, when the test [balance < principal_payment]
    holds on a finite balance, the month is adjusted, it records the
    balance plus the interest, which is also the payment kept for the
    months after, and the balance it leaves is exactly [+0]. *)
Theorem binary64_adjusted_month_clears_balance (r balance pay : float) :
  is_finite balance = true ->
  (balance <? pay - balance * r)%float = true ->
  Binary64.adjusted (Binary64.month r balance pay) = true /\
  Binary64.cashflow (Binary64.month r balance pay)
  = (balance + balance * r)%float /\
  Binary64.pay_after (Binary64.month r balance pay)
  = (balance + balance * r)%float /\
  Binary64.balance_after (Binary64.month r balance pay) = 0%float.
Proof.
  intros Hfin Hlt. unfold Binary64.month. cbv zeta. rewrite Hlt. cbn.
  repeat split. now apply sub_diag_finite.
Qed.

(** 30 left at 10% a month against a payment of 80. *)
Lemma binary64_adjusted_month_clears_balance_witness :
  Binary64.adjusted (Binary64.month 0x1.999999999999ap-4 30 80) = true /\
  Binary64.cashflow (Binary64.month 0x1.999999999999ap-4 30 80)
  = (30 + 30 * 0x1.999999999999ap-4)%float /\
  Binary64.pay_after (Binary64.month 0x1.999999999999ap-4 30 80)
  = (30 + 30 * 0x1.999999999999ap-4)%float /\
  Binary64.balance_after (Binary64.month 0x1.999999999999ap-4 30 80) = 0%float.
Proof.
  apply (binary64_adjusted_month_clears_balance
           0x1.999999999999ap-4%float 30%float 80%float);
    reflexivity.
Defined.

(** ** A cleared balance on binary64 numbers *)

Lemma Prim2SF_eq (x y : float) : Prim2SF x = Prim2SF y -> x = y.
Proof.
  intros H. rewrite <- (SF2Prim_Prim2SF x), <- (SF2Prim_Prim2SF y).
  now rewrite H.
Qed.

Lemma mul_zero_finite (r : float) :
  is_finite r = true -> exists s, Prim2SF (0 * r)%float = S754_zero s.
Proof.
  intros Hr. rewrite mul_spec. change (Prim2SF 0) with (S754_zero false).
  destruct (is_finite_spec r Hr) as [[s ->] | (s & m & e & ->)];
    eexists; reflexivity.
Qed.

(** Taking a zero of either sign from [+0] or from a positive number
    leaves it as it is. *)
Lemma sub_zero_r (x z : float) (s : bool) :
  Prim2SF z = S754_zero s ->
  x = 0%float \/ (0 <? x)%float = true ->
  (x - z)%float = x.
Proof.
  intros Hz Hx. apply Prim2SF_eq. rewrite sub_spec, Hz.
  destruct Hx as [-> | Hlt].
  - change (Prim2SF 0) with (S754_zero false). destruct s; reflexivity.
  - rewrite ltb_spec in Hlt. change (Prim2SF 0) with (S754_zero false) in Hlt.
    destruct (Prim2SF x) as [sx | sx | | sx mx ex]; try reflexivity.
    discriminate.
Qed.

Lemma add_zero_zero (z : float) (s : bool) :
  Prim2SF z = S754_zero s -> (0 + z)%float = 0%float.
Proof.
  intros Hz. apply Prim2SF_eq. rewrite add_spec, Hz.
  change (Prim2SF 0) with (S754_zero false). destruct s; reflexivity.
Qed.

(** One turn on a balance of [+0]. *)
Lemma binary64_month_cleared (r pay : float) :
  is_finite r = true ->
  pay = 0%float \/ (0 <? pay)%float = true ->
  Binary64.cashflow (Binary64.month r 0 pay) = 0%float /\
  Binary64.balance_after (Binary64.month r 0 pay) = 0%float /\
  Binary64.pay_after (Binary64.month r 0 pay) = 0%float.
Proof.
  intros Hr Hpay. destruct (mul_zero_finite r Hr) as [s Hs].
  unfold Binary64.month. cbv zeta.
  rewrite (sub_zero_r pay (0 * r)%float s Hs Hpay).
  destruct Hpay as [-> | Hlt].
  - change (0 <? 0)%float with false. cbn. repeat split; reflexivity.
  - rewrite Hlt. cbn.
    rewrite (add_zero_zero (0 * r)%float s Hs). repeat split; reflexivity.
Qed.

(** X17. On binary64 numbers, at a finite rate, once the balance is [+0]
    and the payment kept is [+0] or positive, every month records [+0]
    and leaves a balance of [+0]. *)
Theorem binary64_cleared_balance_stays (r pay : float) (term : nat) :
  is_finite r = true ->
  pay = 0%float \/ (0 <? pay)%float = true ->
  Forall (fun row =>
            Binary64.cashflow row = 0%float /\
            Binary64.balance_after row = 0%float)
         (Binary64.amortize r term 0 pay).
Proof.
  intros Hr. revert pay. induction term as [|term IH]; intros pay Hpay;
    cbn [Binary64.amortize]; constructor.
  - destruct (binary64_month_cleared r pay Hr Hpay) as (H1 & H2 & _).
    split; assumption.
  - destruct (binary64_month_cleared r pay Hr Hpay) as (_ & H2 & H3).
    rewrite H2, H3. apply IH. now left.
Qed.

(** After the month adjusted to 33 at 10% a month, three more months. *)
Lemma binary64_cleared_balance_stays_witness :
  Forall (fun row =>
            Binary64.cashflow row = 0%float /\
            Binary64.balance_after row = 0%float)
         (Binary64.amortize 0x1.999999999999ap-4 3 0 33).
Proof.
  apply (binary64_cleared_balance_stays 0x1.999999999999ap-4%float 33%float 3);
    [reflexivity | right; reflexivity].
Defined.

(** ** The balance on binary64 numbers is never below zero *)

Lemma binary_round_aux_not_negative (mx ex : Z) (lx : SpecFloat.location) :
  SFltb (binary_round_aux FloatOps.prec FloatOps.emax false mx ex lx) (S754_zero false) = false.
Proof.
  unfold binary_round_aux.
  destruct (shr_fexp FloatOps.prec FloatOps.emax mx ex lx) as [mrs' e'].
  destruct (shr_fexp FloatOps.prec FloatOps.emax _ e' loc_Exact) as [mrs'' e''].
  destruct (shr_m mrs'') as [|m|m]; try reflexivity.
  destruct (Z.leb e'' (emax - prec)); reflexivity.
Qed.

Lemma binary_normalize_not_negative (d e : Z) :
  (0 <= d)%Z ->
  SFltb (binary_normalize FloatOps.prec FloatOps.emax d e false) (S754_zero false) = false.
Proof.
  intros Hd. destruct d as [|m|m]; [reflexivity | | lia].
  unfold binary_normalize, binary_round.
  destruct (shl_align m e _) as [mz ez].
  apply binary_round_aux_not_negative.
Qed.

Lemma digits2_pos_bounds (m : positive) :
  (2 ^ (Z.pos (digits2_pos m) - 1) <= Z.pos m < 2 ^ Z.pos (digits2_pos m))%Z.
Proof.
  induction m as [m IH|m IH|]; cbn [digits2_pos].
  - rewrite Pos2Z.inj_succ.
    replace (Z.succ (Z.pos (digits2_pos m)) - 1)%Z with (Z.succ (Z.pos (digits2_pos m) - 1))%Z by lia.
    rewrite !Z.pow_succ_r by lia. lia.
  - rewrite Pos2Z.inj_succ.
    replace (Z.succ (Z.pos (digits2_pos m)) - 1)%Z with (Z.succ (Z.pos (digits2_pos m) - 1))%Z by lia.
    rewrite !Z.pow_succ_r by lia. lia.
  - cbn. lia.
Qed.

Lemma iter_xO (m d : positive) :
  Z.pos (Pos.iter xO m d) = (Z.pos m * 2 ^ Z.pos d)%Z.
Proof.
  induction d as [|d IH] using Pos.peano_ind.
  - cbn. lia.
  - rewrite Pos.iter_succ, Pos2Z.inj_succ, Z.pow_succ_r by lia.
    rewrite Pos2Z.inj_xO, IH. lia.
Qed.

(** Of two valid finite numbers, the one with the larger exponent has
    the larger mantissa once both are written with the smaller
    exponent. *)
Lemma bounded_exponent_order (mx my : positive) (ex ey : Z) :
  bounded FloatOps.prec FloatOps.emax mx ex = true -> bounded FloatOps.prec FloatOps.emax my ey = true ->
  (ey < ex)%Z ->
  (Z.pos my < Z.pos mx * 2 ^ (ex - ey))%Z.
Proof.
  unfold bounded, canonical_mantissa, fexp, emin, FloatOps.prec, FloatOps.emax.
  intros Hx Hy Hlt.
  apply andb_true_iff in Hx as [Hx _]. apply andb_true_iff in Hy as [Hy _].
  apply Z.eqb_eq in Hx, Hy.
  pose proof (digits2_pos_bounds mx) as Bx.
  pose proof (digits2_pos_bounds my) as By.
  assert (Dx : Z.pos (digits2_pos mx) = 53%Z) by lia.
  assert (Dy : (Z.pos (digits2_pos my) <= 53)%Z) by lia.
  rewrite Dx in Bx.
  assert (Hmy : (Z.pos my < 2 ^ 53)%Z).
  { apply Z.lt_le_trans with (2 ^ Z.pos (digits2_pos my))%Z; [lia|].
    apply Z.pow_le_mono_r; lia. }
  assert (H2 : (2 ^ 1 <= 2 ^ (ex - ey))%Z) by (apply Z.pow_le_mono_r; lia).
  change (53 - 1)%Z with 52%Z in Bx.
  change (2 ^ 1)%Z with 2%Z in H2.
  assert (H52 : (2 ^ 53 = 2 * 2 ^ 52)%Z) by reflexivity.
  nia.
Qed.

Lemma shl_align_fst (m : positive) (e e' : Z) :
  (e' <= e)%Z ->
  Z.pos (fst (shl_align m e e')) = (Z.pos m * 2 ^ (e - e'))%Z.
Proof.
  intros Hle. unfold shl_align.
  destruct (e' - e)%Z as [|d|d] eqn:E; cbn [fst].
  - replace (e - e')%Z with 0%Z by lia. cbn. lia.
  - lia.
  - rewrite iter_xO. replace (e - e')%Z with (Z.pos d) by lia. reflexivity.
Qed.

Lemma SFsub_finite_not_negative (sx sy : bool) (mx my : positive) (ex ey : Z) :
  bounded FloatOps.prec FloatOps.emax mx ex = true -> bounded FloatOps.prec FloatOps.emax my ey = true ->
  SFltb (S754_finite sx mx ex) (S754_finite sy my ey) = false ->
  SFltb (SF64sub (S754_finite sx mx ex) (S754_finite sy my ey))
        (S754_zero false) = false.
Proof.
  intros Vx Vy Hlt. unfold SF64sub, SFsub. cbv zeta.
  apply binary_normalize_not_negative.
  rewrite !shl_align_fst by lia.
  unfold SFltb, SFcompare in Hlt.
  assert (Px : (0 < Z.pos mx * 2 ^ (ex - Z.min ex ey))%Z)
    by (apply Z.mul_pos_pos; [lia | apply Z.pow_pos_nonneg; lia]).
  assert (Py : (0 < Z.pos my * 2 ^ (ey - Z.min ex ey))%Z)
    by (apply Z.mul_pos_pos; [lia | apply Z.pow_pos_nonneg; lia]).
  destruct sx, sy; cbn [cond_Zopp]; try discriminate; try lia.
  - (* both negative *)
    destruct (Z.compare_spec ex ey) as [Heq | Hl | Hg]; try discriminate.
    + subst ey. rewrite Z.min_id, Z.sub_diag, Z.pow_0_r.
      destruct (Pos.compare_cont Eq mx my) eqn:C; try discriminate.
      * apply Pos.compare_eq in C. subst. lia.
      * assert (Z.pos mx < Z.pos my)%Z by (apply Pos2Z.pos_lt_pos; exact C). lia.
    + pose proof (bounded_exponent_order my mx ey ex Vy Vx Hl).
      rewrite Z.min_l by lia. rewrite Z.sub_diag, Z.pow_0_r. lia.
  - (* both positive *)
    destruct (Z.compare_spec ex ey) as [Heq | Hl | Hg]; try discriminate.
    + subst ey. rewrite Z.min_id, Z.sub_diag, Z.pow_0_r.
      destruct (Pos.compare_cont Eq mx my) eqn:C; try discriminate.
      * apply Pos.compare_eq in C. subst. lia.
      * assert (Z.pos my < Z.pos mx)%Z
          by (apply Pos2Z.pos_lt_pos, Pos.gt_lt; exact C). lia.
    + pose proof (bounded_exponent_order mx my ex ey Vx Vy Hg).
      rewrite Z.min_r by lia. rewrite Z.sub_diag, Z.pow_0_r. lia.
Qed.

Lemma SFsub_not_negative (X Y : spec_float) :
  valid_binary X = true -> valid_binary Y = true ->
  SFltb X Y = false ->
  SFltb (SF64sub X Y) (S754_zero false) = false.
Proof.
  intros Vx Vy Hlt.
  destruct X as [sx | sx | | sx mx ex], Y as [sy | sy | | sy my ey];
    try reflexivity;
    try (destruct sx, sy; try reflexivity; discriminate);
    try (destruct sx; try reflexivity; discriminate);
    try (destruct sy; try reflexivity; discriminate).
  now apply SFsub_finite_not_negative.
Qed.

Lemma SFsub_diag_not_negative (X : spec_float) :
  SFltb (SF64sub X X) (S754_zero false) = false.
Proof.
  destruct X as [s | s | | s m e]; try (destruct s; reflexivity); try reflexivity.
  unfold SF64sub, SFsub. cbv zeta. rewrite Z.sub_diag. reflexivity.
Qed.

Lemma binary64_month_balance_not_negative (r balance pay : float) :
  (Binary64.balance_after (Binary64.month r balance pay) <? 0)%float = false.
Proof.
  unfold Binary64.month. cbv zeta.
  destruct (balance <? pay - balance * r)%float eqn:E; cbn;
    rewrite ltb_spec, sub_spec; change (Prim2SF 0) with (S754_zero false).
  - apply SFsub_diag_not_negative.
  - rewrite ltb_spec in E.
    apply SFsub_not_negative; [apply Prim2SF_valid | apply Prim2SF_valid | exact E].
Qed.

(** X18. On binary64 numbers, for every rate, balance and payment,
    finite or not, no month of the loop leaves a balance below zero:
    the comparison of the balance left with 0 is false in every row. *)
Theorem binary64_balance_never_below_zero
        (r : float) (term : nat) (balance pay : float) :
  Forall (fun row => (Binary64.balance_after row <? 0)%float = false)
         (Binary64.amortize r term balance pay).
Proof.
  revert balance pay. induction term as [|term IH]; intros balance pay;
    cbn [Binary64.amortize]; constructor.
  - apply binary64_month_balance_not_negative.
  - apply IH.
Qed.


(** * From one month to the next *)

(** Every row of the loop is the turn run on the two variables the row
    started with. *)
Lemma amortize_row (r : Q) (term : nat) :
  forall balance pay pre row post,
    amortize r term balance pay = pre ++ row :: post ->
    row = month r (balance_before row) (pay_before row).
Proof.
  induction term as [|term IH]; intros balance pay pre row post Heq.
  - destruct pre; discriminate.
  - cbn [amortize] in Heq. cbv zeta in Heq. destruct pre as [|row0 pre].
    + cbn [app] in Heq. injection Heq as Hrow _. subst row.
      destruct (month_before r balance pay) as [H1 H2]. now rewrite H1, H2.
    + cbn [app] in Heq. injection Heq as _ Hrest. eapply IH; eassumption.
Qed.

(** A row starts with the variables the row before it left. *)
Lemma amortize_next (r : Q) (term : nat) :
  forall balance pay pre row next post,
    amortize r term balance pay = pre ++ row :: next :: post ->
    balance_before next = balance_after row /\
    pay_before next = pay_after row.
Proof.
  induction term as [|term IH]; intros balance pay pre row next post Heq.
  - destruct pre; discriminate.
  - cbn [amortize] in Heq. cbv zeta in Heq. destruct pre as [|row0 pre].
    + cbn [app] in Heq. injection Heq as Hrow Hrest. subst row.
      destruct term as [|term']; [discriminate|].
      cbn [amortize] in Hrest. cbv zeta in Hrest. injection Hrest as Hnext _.
      subst next. apply month_before.
    + cbn [app] in Heq. injection Heq as _ Hrest. eapply IH; eassumption.
Qed.

(** As long as no month has been adjusted, every month has recorded the
    payment the loop was started with, and [pay] still holds it. *)
Lemma amortize_level_prefix (r : Q) (term : nat) :
  forall balance pay pre row post,
    amortize r term balance pay = pre ++ row :: post ->
    Forall (fun earlier => adjusted earlier = false) pre ->
    Forall (fun earlier => cashflow earlier = pay) pre /\
    pay_before row = pay.
Proof.
  induction term as [|term IH]; intros balance pay pre row post Heq Hpre.
  - destruct pre; discriminate.
  - cbn [amortize] in Heq. cbv zeta in Heq. destruct pre as [|row0 pre].
    + cbn [app] in Heq. injection Heq as Hrow _. subst row.
      split; [constructor | apply month_before].
    + cbn [app] in Heq. injection Heq as Hrow0 Hrest. subst row0.
      inversion Hpre as [|? ? Hadj Hpre']; subst.
      destruct (month_cases r balance pay) as [H|H].
      * destruct (month_adjusted r balance pay H) as (Ht & _). congruence.
      * destruct (month_not_adjusted r balance pay H) as (_ & _ & Hc & Hpa & _).
        rewrite Hpa in Hrest.
        destruct (IH _ _ _ _ _ Hrest Hpre') as [Hall Hpb].
        split; [constructor; assumption | assumption].
Qed.

(** X3. In the loop started on any balance and payment, take a month
    that is not adjusted and the month after it.  The interest component
    falls by the rate times the principal just repaid.  When the next
    month is not adjusted either, it records the same payment and its
    principal component is [1 + r] times the one before; when it is
    adjusted, its principal component is the balance that was left,
    which is below [1 + r] times the one before, and it records less
    than the month before. *)
Theorem components_from_month_to_month (r : Q) (term : nat) (balance pay : Q) :
  forall pre row next post,
    amortize r term balance pay = pre ++ row :: next :: post ->
    adjusted row = false ->
    interest_payment next
    == interest_payment row - r * principal_payment row /\
    (adjusted next = false ->
     cashflow next = cashflow row /\
     principal_payment next == (1 + r) * principal_payment row) /\
    (adjusted next = true ->
     principal_payment next = balance_after row /\
     cashflow next < cashflow row /\
     principal_payment next < (1 + r) * principal_payment row).
Proof.
  intros pre row next post Heq Hadj.
  pose proof (amortize_row r term balance pay pre row (next :: post) Heq) as Hrow.
  pose proof (amortize_row r term balance pay (pre ++ [row]) next post) as Hnext.
  rewrite <- app_assoc in Hnext. specialize (Hnext Heq).
  destruct (amortize_next r term balance pay pre row next post Heq) as [Hb Hp].
  rewrite Hb, Hp in Hnext.
  set (b := balance_before row) in *. set (p := pay_before row) in *.
  assert (Hle : p - b * r <= b).
  { destruct (month_cases r b p) as [H|H]; [|assumption].
    destruct (month_adjusted r b p H) as (Ht & _).
    rewrite <- Hrow in Ht. congruence. }
  destruct (month_not_adjusted r b p Hle) as (_ & Hpp & Hc & Hpa & Hba).
  pose proof (month_interest r b p) as Hi.
  rewrite <- Hrow in Hpp, Hc, Hpa, Hba, Hi.
  rewrite Hpa, Hba in Hnext.
  set (b' := b - (p - b * r)) in *.
  pose proof (month_interest r b' p) as Hi'. rewrite <- Hnext in Hi'.
  split; [|split].
  - rewrite Hi', Hi, Hpp. unfold b'. ring.
  - intros Hn.
    assert (Hle' : p - b' * r <= b').
    { destruct (month_cases r b' p) as [H|H]; [|assumption].
      destruct (month_adjusted r b' p H) as (Ht & _).
      rewrite <- Hnext in Ht. congruence. }
    destruct (month_not_adjusted r b' p Hle') as (_ & Hpp' & Hc' & _).
    rewrite <- Hnext in Hpp', Hc'.
    split; [congruence|]. rewrite Hpp', Hpp. unfold b'. ring.
  - intros Hn.
    assert (Hlt : b' < p - b' * r).
    { rewrite Hnext in Hn. now apply month_adjusted_iff in Hn. }
    destruct (month_adjusted r b' p Hlt) as (_ & Hpp' & Hc' & _ & Hcl & _).
    rewrite <- Hnext in Hpp', Hc', Hcl.
    split; [now rewrite Hpp', Hba|]. split.
    + now rewrite Hc.
    + rewrite Hpp', Hpp. unfold b' in *. lra.
Qed.

(** 100 at 10% a month paid 80: the first month repays 70 with 10 of
    interest, the second is adjusted and repays the 30 left with 3 of
    interest. *)
Lemma components_from_month_to_month_witness :
  interest_payment overpaid_second
  == interest_payment overpaid_first - (1 # 10) * principal_payment overpaid_first /\
  principal_payment overpaid_second = balance_after overpaid_first /\
  cashflow overpaid_second < cashflow overpaid_first /\
  principal_payment overpaid_second
  < (1 + (1 # 10)) * principal_payment overpaid_first.
Proof.
  destruct (components_from_month_to_month (1 # 10) 4 100 80
              [] overpaid_first overpaid_second overpaid_rest
              eq_refl eq_refl) as (Hi & _ & Hadj).
  split; [exact Hi | apply Hadj; reflexivity].
Defined.

(** X8. In the loop started on any balance and payment, every month up
    to the first adjusted one records the payment the loop was started
    with, for a loan its scheduled payment.  The first adjusted month
    starts with that payment in [pay] and records the balance plus the
    interest on it, which is less. *)
Theorem schedule_level_until_adjusted (r : Q) (term : nat) (balance pay : Q) :
  forall pre row post,
    amortize r term balance pay = pre ++ row :: post ->
    Forall (fun earlier => adjusted earlier = false) pre ->
    Forall (fun earlier => cashflow earlier = pay) pre /\
    pay_before row = pay /\
    (adjusted row = false -> cashflow row = pay) /\
    (adjusted row = true ->
     cashflow row = balance_before row + interest_payment row /\
     cashflow row < pay).
Proof.
  intros pre row post Heq Hpre.
  destruct (amortize_level_prefix r term balance pay pre row post Heq Hpre)
    as [Hall Hpb].
  pose proof (amortize_row r term balance pay pre row post Heq) as Hrow.
  rewrite Hpb in Hrow. set (b := balance_before row) in *.
  split; [assumption|]. split; [assumption|]. split.
  - intros Hadj.
    destruct (month_cases r b pay) as [H|H].
    + destruct (month_adjusted r b pay H) as (Ht & _).
      rewrite <- Hrow in Ht. congruence.
    + destruct (month_not_adjusted r b pay H) as (_ & _ & Hc & _).
      now rewrite <- Hrow in Hc.
  - intros Hadj. rewrite Hrow in Hadj. apply month_adjusted_iff in Hadj.
    destruct (month_adjusted r b pay Hadj) as (_ & _ & Hc & _ & Hlt & _).
    pose proof (month_interest r b pay) as Hi.
    rewrite <- Hrow in Hc, Hlt, Hi.
    split; [now rewrite Hi | assumption].
Qed.

(** 100 at 10% a month paid 80: the first month records 80, the second
    is adjusted and records 30 + 3. *)
Lemma schedule_level_until_adjusted_witness :
  Forall (fun earlier => cashflow earlier = 80) [overpaid_first] /\
  pay_before overpaid_second = 80 /\
  cashflow overpaid_second
  = balance_before overpaid_second + interest_payment overpaid_second /\
  cashflow overpaid_second < 80.
Proof.
  destruct (schedule_level_until_adjusted (1 # 10) 4 100 80
              [overpaid_first] overpaid_second overpaid_rest eq_refl)
    as (Hall & Hpb & _ & Hadj).
  - repeat constructor.
  - split; [exact Hall|]. split; [exact Hpb | apply Hadj; reflexivity].
Defined.

(** * The portfolio series against the scheduled payments *)

Lemma Qsum_map_le {A : Type} (g h : A -> Q) (l : list A) :
  (forall x, In x l -> g x <= h x) -> Qsum (map g l) <= Qsum (map h l).
Proof.
  induction l as [|x l IH]; intros H; cbn [map Qsum]; [lra|].
  pose proof (H x (or_introl eq_refl)) as Hx.
  assert (Qsum (map g l) <= Qsum (map h l))
    by (apply IH; intros y Hy; apply H; now right).
  lra.
Qed.

Lemma nth_le_bound (c : Q) (l : list Q) (m : nat) :
  Forall (fun x => x <= c) l -> (m < length l)%nat -> nth m l 0 <= c.
Proof.
  intros Hall Hm. rewrite Forall_forall in Hall.
  apply Hall, nth_In, Hm.
Qed.

Lemma Qsum_le_bound (c : Q) (l : list Q) :
  Forall (fun x => x <= c) l ->
  Qsum l <= inject_Z (Z.of_nat (length l)) * c.
Proof.
  induction 1 as [|x l Hx _ IH]; cbn [length Qsum].
  - change (0 <= 0 * c). lra.
  - rewrite Nat2Z.inj_succ. unfold Z.succ. rewrite inject_Z_plus.
    change (inject_Z 1) with 1. lra.
Qed.

(** No entry of a loan's row of [loan_cashflows] exceeds the payment
    the loop was started with. *)
Lemma amortize_cashflow_le (r : Q) (term : nat) (balance pay : Q) :
  Forall (fun x => x <= pay) (map cashflow (amortize r term balance pay)).
Proof.
  apply Forall_map.
  eapply Forall_impl; [|apply amortize_pay_bound]. now intros row [_ H].
Qed.

(** While no month has been adjusted, the entry recorded is the payment
    the loop was started with. *)
Lemma amortize_nth_level (r : Q) (term : nat) :
  forall balance pay m,
    (m < term)%nat ->
    Forall (fun row => adjusted row = false)
           (firstn (S m) (amortize r term balance pay)) ->
    nth m (map cashflow (amortize r term balance pay)) 0 = pay.
Proof.
  induction term as [|term IH]; intros balance pay m Hm Hall; [lia|].
  cbn [amortize] in *. cbv zeta in *. cbn [firstn] in Hall.
  inversion Hall as [|? ? Hadj Hrest]; subst.
  destruct (month_cases r balance pay) as [H|H].
  - destruct (month_adjusted r balance pay H) as (Ht & _). congruence.
  - destruct (month_not_adjusted r balance pay H) as (_ & _ & Hc & Hpa & _).
    destruct m as [|m]; cbn [map nth]; [assumption|].
    rewrite Hpa in *. apply IH; [lia | assumption].
Qed.

(** The two bounds the pool properties rest on. *)
Lemma pool_bounded (num_loans term : nat) (loan_amounts interest_rates : list Q) :
  (forall m, (m < term)%nat ->
             nth m (portfolio_cashflow num_loans term loan_amounts interest_rates) 0
             <= Qsum (payments num_loans term loan_amounts interest_rates)) /\
  total_cash num_loans term loan_amounts interest_rates
  <= inject_Z (Z.of_nat term)
     * Qsum (payments num_loans term loan_amounts interest_rates).
Proof.
  destruct (fold_vadd (loan_cashflows num_loans term loan_amounts interest_rates)
                      (repeat 0 term)) as (_ & H2 & H3).
  { rewrite repeat_length. apply loan_cashflows_width. }
  split.
  - intros m Hm. unfold portfolio_cashflow, sum_axis0.
    rewrite H3, nth_repeat_0, Qplus_0_l.
    rewrite <- (payments_as_map num_loans term loan_amounts interest_rates).
    unfold loan_cashflows. rewrite map_map.
    apply Qsum_map_le. intros i _. cbv zeta.
    apply nth_le_bound; [apply amortize_cashflow_le|].
    now rewrite length_map, amortize_length.
  - unfold total_cash, portfolio_cashflow, sum_axis0.
    rewrite H2, Qsum_repeat_0, Qplus_0_l.
    rewrite <- (payments_as_map num_loans term loan_amounts interest_rates).
    rewrite <- Qsum_map_scale.
    unfold loan_cashflows. rewrite map_map.
    apply Qsum_map_le. intros i _. cbv zeta.
    pose proof (Qsum_le_bound _ _
                  (amortize_cashflow_le (nth i interest_rates 0 / 12) term
                     (nth i loan_amounts 0)
                     (nth i (payments num_loans term loan_amounts
                                      interest_rates) 0))) as Hb.
    now rewrite length_map, amortize_length in Hb.
Qed.

(** X9. For any pool, no entry of the portfolio series exceeds the sum
    of the scheduled payments, and the cash collected is at most [term]
    times that sum.  The entry of a month equals the sum of the
    scheduled payments when no loan has been adjusted in that month or
    before it. *)
Theorem portfolio_cashflow_bounded_by_payments
        (num_loans term : nat) (loan_amounts interest_rates : list Q) :
  let scheduled := payments num_loans term loan_amounts interest_rates in
  let portfolio :=
    portfolio_cashflow num_loans term loan_amounts interest_rates in
  (forall m, (m < term)%nat -> nth m portfolio 0 <= Qsum scheduled) /\
  total_cash num_loans term loan_amounts interest_rates
  <= inject_Z (Z.of_nat term) * Qsum scheduled /\
  (forall m,
      (m < term)%nat ->
      (forall i, (i < num_loans)%nat ->
                 Forall (fun row => adjusted row = false)
                        (firstn (S m)
                                (amortize (nth i interest_rates 0 / 12) term
                                          (nth i loan_amounts 0)
                                          (nth i scheduled 0)))) ->
      nth m portfolio 0 == Qsum scheduled).
Proof.
  intros scheduled portfolio.
  destruct (pool_bounded num_loans term loan_amounts interest_rates)
    as [Hentry Hcash].
  split; [exact Hentry|]. split; [exact Hcash|].
  intros m Hm Hall.
  destruct (fold_vadd (loan_cashflows num_loans term loan_amounts interest_rates)
                      (repeat 0 term)) as (_ & _ & H3).
  { rewrite repeat_length. apply loan_cashflows_width. }
  unfold portfolio, portfolio_cashflow, sum_axis0.
  rewrite H3, nth_repeat_0, Qplus_0_l.
  unfold scheduled.
  rewrite <- (payments_as_map num_loans term loan_amounts interest_rates).
  unfold loan_cashflows. rewrite map_map.
  apply Qsum_map_ext. intros i Hi. apply in_seq in Hi. cbv zeta.
  rewrite amortize_nth_level; [reflexivity | assumption |].
  apply Hall. lia.
Qed.

(** Two loans over two months: in the first month neither is adjusted. *)
Lemma portfolio_cashflow_bounded_by_payments_witness :
  nth 0 (portfolio_cashflow 2 2 [1200; 2400] [0.12; 0.06]) 0
  == Qsum (payments 2 2 [1200; 2400] [0.12; 0.06]).
Proof.
  apply (portfolio_cashflow_bounded_by_payments 2 2 [1200; 2400] [0.12; 0.06]);
    [lia|].
  intros [|[|i]] Hi; [repeat constructor | repeat constructor | lia].
Defined.

(** * The tranche series against the portfolio series *)

(** X11. For any pool over a positive term, each tranche's flat series
    pays out, over the term, its fraction of the sum of the portfolio
    series, and every entry of it is that fraction of the mean of the
    portfolio series.  Month by month the three tranches together pay
    the mean of the portfolio series, and over the term the sum of the
    portfolio series. *)
Theorem tranche_series_pay_out_total_cash
        (num_loans term : nat) (loan_amounts interest_rates : list Q) :
  (0 < term)%nat ->
  let portfolio :=
    portfolio_cashflow num_loans term loan_amounts interest_rates in
  let cash := total_cash num_loans term loan_amounts interest_rates in
  let mean := Qsum portfolio / inject_Z (Z.of_nat term) in
  (Qsum (senior_cf term cash) == senior_pct * Qsum portfolio /\
   Qsum (mezzanine_cf term cash) == mezzanine_pct * Qsum portfolio /\
   Qsum (equity_cf term cash) == equity_pct * Qsum portfolio) /\
  (forall m, (m < term)%nat ->
             nth m (senior_cf term cash) 0 == senior_pct * mean /\
             nth m (mezzanine_cf term cash) 0 == mezzanine_pct * mean /\
             nth m (equity_cf term cash) 0 == equity_pct * mean /\
             nth m (senior_cf term cash) 0 + nth m (mezzanine_cf term cash) 0
             + nth m (equity_cf term cash) 0 == mean) /\
  Qsum (senior_cf term cash) + Qsum (mezzanine_cf term cash)
  + Qsum (equity_cf term cash) == Qsum portfolio.
Proof.
  intros Ht portfolio cash mean.
  assert (Hn : ~ inject_Z (Z.of_nat term) == 0).
  { intros H. unfold Qeq in H. cbn in H. lia. }
  destruct (tranche_cf_sum term cash Ht) as (Hs & Hm & He).
  assert (Hcash : cash == Qsum portfolio) by reflexivity.
  unfold senior_total_cash, mezzanine_total_cash, equity_total_cash in *.
  split; [|split].
  - rewrite Hs, Hm, He, Hcash. repeat split; ring.
  - intros m Hlt. unfold senior_cf, mezzanine_cf, equity_cf.
    rewrite !nth_repeat_lt by assumption.
    unfold senior_total_cash, mezzanine_total_cash, equity_total_cash, mean,
      senior_pct, mezzanine_pct, equity_pct.
    rewrite Hcash. repeat split; field; assumption.
  - rewrite Hs, Hm, He, Hcash.
    unfold senior_pct, mezzanine_pct, equity_pct. ring.
Qed.

Lemma tranche_series_pay_out_total_cash_witness :
  Qsum (senior_cf 2 (total_cash 2 2 [1200; 2400] [0.12; 0.06]))
  + Qsum (mezzanine_cf 2 (total_cash 2 2 [1200; 2400] [0.12; 0.06]))
  + Qsum (equity_cf 2 (total_cash 2 2 [1200; 2400] [0.12; 0.06]))
  == Qsum (portfolio_cashflow 2 2 [1200; 2400] [0.12; 0.06]).
Proof.
  apply (tranche_series_pay_out_total_cash 2 2 [1200; 2400] [0.12; 0.06]).
  lia.
Defined.

(** * Paying less or more than the scheduled payment *)

(** One turn with a payment that leaves [left] after [S j] months:
    the payment is kept and leaves [left] after the [j] months that
    remain. *)
Lemma month_leaving (r pay : Q) (j : nat) (balance left : Q) :
  0 < r -> 0 <= pay -> 0 <= left ->
  leaving r pay (S j) balance left ->
  pay_after (month r balance pay) = pay /\
  leaving r pay j (balance_after (month r balance pay)) left.
Proof.
  intros Hr Hpay Hleft Hs.
  assert (Hq : 0 < 1 + r) by lra.
  pose proof (discount_S r j Hq) as HS.
  pose proof (discount_le_1 r j (Qlt_le_weak _ _ Hr)) as Hle.
  pose proof (discount_pos r j Hq) as Hpos.
  unfold leaving in *.
  assert (E1 : pay * (discount r (S j) * (1 + r)) == pay * discount r j)
    by (rewrite HS; ring).
  assert (E2 : left * r * (discount r (S j) * (1 + r))
               == left * r * discount r j)
    by (rewrite HS; ring).
  assert (Hnext : (balance - (pay - balance * r)) * r
                  == pay * (1 - discount r j) + left * r * discount r j).
  { setoid_replace ((balance - (pay - balance * r)) * r)
      with (balance * r * (1 + r) - pay * r) by ring.
    rewrite Hs.
    setoid_replace ((pay * (1 - discount r (S j))
                     + left * r * discount r (S j)) * (1 + r) - pay * r)
      with (pay - pay * (discount r (S j) * (1 + r))
            + left * r * (discount r (S j) * (1 + r))) by ring.
    rewrite E1, E2. ring. }
  assert (H0 : 0 <= pay * (1 - discount r j) + left * r * discount r j).
  { assert (0 <= pay * (1 - discount r j)) by (apply Qmult_le_0_compat; lra).
    assert (0 <= left * r) by (apply Qmult_le_0_compat; lra).
    assert (0 <= left * r * discount r j) by (apply Qmult_le_0_compat; lra).
    lra. }
  assert (Hnn : 0 <= balance - (pay - balance * r)).
  { rewrite <- Hnext in H0. clear - H0 Hr.
    destruct (Qlt_le_dec (balance - (pay - balance * r)) 0) as [Hneg|];
      [|assumption].
    exfalso. nra. }
  destruct (month_not_adjusted r balance pay) as (_ & _ & _ & Hpa & Hba);
    [lra|].
  rewrite Hba. split; assumption.
Qed.

Lemma final_state_leaving (r pay left : Q) (j : nat) :
  0 < r -> 0 <= pay -> 0 <= left ->
  forall balance,
    leaving r pay j balance left ->
    fst (final_state r j balance pay) == left.
Proof.
  intros Hr Hpay Hleft. induction j as [|j IH]; intros balance Hs.
  - unfold leaving in Hs. rewrite discount_0 in Hs.
    cbn [final_state fst]. apply (Qmult_inj_r _ _ r); lra.
  - destruct (month_leaving r pay j balance left Hr Hpay Hleft Hs)
      as [Hpa Hnext].
    cbn [final_state]. cbv zeta. rewrite Hpa. now apply IH.
Qed.

Lemma month_zero_balance (r balance pay : Q) :
  balance == 0 -> 0 <= pay ->
  cashflow (month r balance pay) == 0 /\
  balance_after (month r balance pay) == 0 /\
  0 <= pay_after (month r balance pay).
Proof.
  intros Hb Hp. destruct (month_cases r balance pay) as [H|H].
  - destruct (month_adjusted r balance pay H) as (_ & _ & Hc & Hpa & _ & Hz).
    rewrite Hpa, Hc. repeat split; [rewrite Hb; ring | assumption | rewrite Hb; lra].
  - destruct (month_not_adjusted r balance pay H) as (_ & _ & Hc & Hpa & Hba).
    rewrite Hb in H. rewrite Hc, Hba, Hpa.
    repeat split; [lra | rewrite Hb; lra | assumption].
Qed.

Lemma final_state_zero_balance (r : Q) (term : nat) :
  forall balance pay,
    balance == 0 -> 0 <= pay -> fst (final_state r term balance pay) == 0.
Proof.
  induction term as [|term IH]; intros balance pay Hb Hp; cbn [final_state fst].
  - assumption.
  - cbv zeta. destruct (month_zero_balance r balance pay Hb Hp) as (_ & Hz & Hpa).
    now apply IH.
Qed.

(** A payment that is at least the level payment for the [j] months
    that remain leaves nothing, whether a month is adjusted or not. *)
Lemma final_state_overpaid (r pay : Q) (j : nat) :
  0 < r -> 0 <= pay ->
  forall balance,
    0 <= balance ->
    balance * r <= pay * (1 - discount r j) ->
    fst (final_state r j balance pay) == 0.
Proof.
  intros Hr Hpay. induction j as [|j IH]; intros balance Hb Hle.
  - rewrite discount_0 in Hle. cbn [final_state fst].
    apply Qle_antisym; [|assumption]. nra.
  - cbn [final_state]. cbv zeta.
    destruct (month_cases r balance pay) as [H|H].
    + destruct (month_adjusted r balance pay H) as (_ & _ & Hc & Hpa & _ & Hz).
      apply final_state_zero_balance; [assumption|].
      rewrite Hpa, Hc. nra.
    + destruct (month_not_adjusted r balance pay H) as (_ & _ & _ & Hpa & Hba).
      assert (Hq : 0 < 1 + r) by lra.
      pose proof (discount_S r j Hq) as HS.
      assert (E : pay * (discount r (S j) * (1 + r)) == pay * discount r j)
        by (rewrite HS; ring).
      assert (H1 : balance * r * (1 + r)
                   <= pay * (1 - discount r (S j)) * (1 + r))
        by (apply Qmult_le_compat_r; lra).
      rewrite Hpa. apply IH.
      * rewrite Hba. lra.
      * rewrite Hba. lra.
Qed.

(** X4. A loan with positive principal and annual rate run with a
    payment that is not negative.  Paid at most the scheduled payment,
    the balance left after [term] months is not negative and,
    discounted over the term, is worth the shortfall of every month;
    paid at least the scheduled payment, the balance left is 0. *)
Theorem balance_left_by_payment
        (principal annual_rate : Q) (term : nat) (pay : Q) :
  0 < principal -> 0 < annual_rate -> (0 < term)%nat -> 0 <= pay ->
  let r := annual_rate / 12 in
  let scheduled := monthly_payment principal annual_rate term in
  let left := fst (final_state r term principal pay) in
  (pay <= scheduled ->
   0 <= left /\
   left * discount r term == present_value r (scheduled - pay) term) /\
  (scheduled <= pay -> left == 0).
Proof.
  intros Hp Ha Ht Hpay r scheduled left.
  assert (Hr : 0 < r) by (apply Qlt_shift_div_l; lra).
  assert (Hq : 0 < 1 + r) by lra.
  pose proof (monthly_payment_on_schedule principal annual_rate term Ha Ht) as Hs.
  fold r scheduled in Hs. unfold on_schedule in Hs.
  pose proof (discount_lt_1 r term Hr Ht) as Hd.
  pose proof (discount_pos r term Hq) as Hd0.
  split; intros Hle.
  - set (owed := (scheduled - pay) * (1 - discount r term)
                 / (r * discount r term)).
    assert (Hrd : 0 < r * discount r term) by (apply Qmult_lt_0_compat; lra).
    assert (Howed : 0 <= owed).
    { unfold owed. apply Qle_shift_div_l; [assumption|].
      rewrite Qmult_0_l. apply Qmult_le_0_compat; lra. }
    assert (Hleave : leaving r pay term principal owed).
    { unfold leaving. rewrite Hs. unfold owed. field. split; lra. }
    pose proof (final_state_leaving r pay owed term Hr Hpay Howed _ Hleave)
      as Hfin.
    fold left in Hfin. split; [rewrite Hfin; assumption|].
    apply (Qmult_inj_r _ _ r); [lra|].
    rewrite present_value_closed by assumption.
    rewrite Hfin. unfold owed. field. split; lra.
  - apply final_state_overpaid; try assumption; [lra|].
    rewrite Hs. apply Qmult_le_compat_r; lra.
Qed.

(** 100 at 10% a month over 4 months is scheduled at about 31.55 a
    month: paid 10 it leaves a balance, paid 80 it leaves none. *)
Lemma balance_left_by_payment_witness :
  (0 <= fst (final_state (1.2 / 12) 4 100 10) /\
   fst (final_state (1.2 / 12) 4 100 10) * discount (1.2 / 12) 4
   == present_value (1.2 / 12) (monthly_payment 100 1.2 4 - 10) 4) /\
  fst (final_state (1.2 / 12) 4 100 80) == 0.
Proof.
  split.
  - apply (balance_left_by_payment 100 1.2 4 10);
      [reflexivity | reflexivity | lia | discriminate | discriminate].
  - apply (balance_left_by_payment 100 1.2 4 80);
      [reflexivity | reflexivity | lia | discriminate | discriminate].
Defined.

(** * The series handed to the root-finder *)

(** X12. The series [calculate_irr] hands to the root-finder for a
    tranche is the tranche's signed series.  For a valid pool of at
    least one loan over at least one month and a positive fraction, it
    has [term + 1] entries, the first negative and the others
    positive, and its entries add up to the fraction of what the pool
    collects above what it lent, which is positive. *)
Theorem tranche_values_net_gain
        (num_loans term : nat) (loan_amounts interest_rates : list Q) (pct : Q) :
  valid_pool num_loans loan_amounts interest_rates ->
  (0 < num_loans)%nat -> (0 < term)%nat -> 0 < pct ->
  let principal := total_principal loan_amounts in
  let cash := total_cash num_loans term loan_amounts interest_rates in
  let values := tranche_values term principal cash pct in
  ((- senior_investment principal) :: senior_cf term cash
   = tranche_values term principal cash senior_pct /\
   (- mezzanine_investment principal) :: mezzanine_cf term cash
   = tranche_values term principal cash mezzanine_pct /\
   (- equity_investment principal) :: equity_cf term cash
   = tranche_values term principal cash equity_pct) /\
  length values = S term /\
  hd 0 values < 0 /\
  Forall (fun x => 0 < x) (tl values) /\
  Qsum values == pct * (cash - principal) /\
  0 < Qsum values.
Proof.
  intros Hv Hn Ht Hpct principal cash values.
  assert (Hpos : 0 < principal).
  { destruct Hv as (L1 & _ & P1 & _). apply Qsum_positive; [|assumption].
    intros ->. cbn in L1. lia. }
  pose proof (pool_cash_exceeds_principal num_loans term loan_amounts
                interest_rates Hv Hn Ht) as Hgain.
  fold principal cash in Hgain.
  assert (Hterm : 0 < inject_Z (Z.of_nat term)).
  { unfold Qlt. cbn. lia. }
  assert (Hsum : Qsum values == pct * (cash - principal)).
  { unfold values, tranche_values. cbn [Qsum]. rewrite Qsum_repeat.
    field. lra. }
  split; [repeat split|]. split; [|split; [|split; [|split]]].
  - unfold values, tranche_values. cbn [length]. now rewrite repeat_length.
  - unfold values, tranche_values. cbn [hd].
    assert (0 < principal * pct) by (apply Qmult_lt_0_compat; assumption).
    lra.
  - unfold values, tranche_values. cbn [tl]. apply Forall_repeat.
    apply Qlt_shift_div_l; [assumption|]. rewrite Qmult_0_l.
    apply Qmult_lt_0_compat; lra.
  - exact Hsum.
  - rewrite Hsum. apply Qmult_lt_0_compat; lra.
Qed.

Lemma tranche_values_net_gain_witness :
  0 < Qsum (tranche_values 2 (total_principal [1200; 2400])
                           (total_cash 2 2 [1200; 2400] [0.12; 0.06])
                           senior_pct).
Proof.
  apply (tranche_values_net_gain 2 2 [1200; 2400] [0.12; 0.06] senior_pct);
    [valid_pool_by_evaluation | lia | lia | reflexivity].
Defined.

(** * The report of the whole script *)

Lemma Forall_range_positive (low high : Q) (l : list Q) :
  0 < low -> Forall (fun x => low <= x /\ x < high) l ->
  Forall (fun x => 0 < x) l.
Proof.
  intros Hlow. apply Forall_impl. intros x [Hx _]. lra.
Qed.

(** X19. Whatever generator keeps its draws in [[0, 1)], and whatever
    state it starts in, the pool the script draws is valid, and the
    report has a portfolio series of 36 entries, none above the sum of
    the 100 scheduled payments, a cash total of at most 36 times that
    sum, and more cash collected than principal lent. *)
Theorem script_report_is_consistent
        (rng_state : Type) (seed : Z -> rng_state)
        (random_sample : rng_state -> Q * rng_state)
        (irr : list Q -> irr_result) (st : rng_state) :
  (forall st, 0 <= fst (random_sample st) /\ fst (random_sample st) < 1) ->
  let rep := fst (script rng_state seed random_sample irr st) in
  let scheduled :=
    payments 100 36 (drawn_loan_amounts rep) (drawn_interest_rates rep) in
  valid_pool 100 (drawn_loan_amounts rep) (drawn_interest_rates rep) /\
  length (report_portfolio_cashflow rep) = 36%nat /\
  (forall m, (m < 36)%nat ->
             nth m (report_portfolio_cashflow rep) 0 <= Qsum scheduled) /\
  report_total_cash rep <= inject_Z 36 * Qsum scheduled /\
  report_total_principal rep < report_total_cash rep.
Proof.
  intros Hrange rep scheduled. subst scheduled rep.
  rewrite script_draws.
  set (draw1 := uniform rng_state random_sample 10000 50000 100 (seed 42%Z)).
  set (draw2 := uniform rng_state random_sample 0.05 0.15 100 (snd draw1)).
  cbv beta iota zeta
      delta [fst drawn_loan_amounts drawn_interest_rates
             report_portfolio_cashflow report_total_principal
             report_total_cash].
  fold (fst draw1) (fst draw2).
  assert (Hv : valid_pool 100 (fst draw1) (fst draw2)).
  { repeat split.
    - apply uniform_length.
    - apply uniform_length.
    - apply (Forall_range_positive 10000 50000); [reflexivity|].
      apply uniform_range; [assumption | reflexivity].
    - apply (Forall_range_positive 0.05 0.15); [reflexivity|].
      apply uniform_range; [assumption | reflexivity]. }
  destruct (pool_bounded 100 36 (fst draw1) (fst draw2)) as [Hentry Hcash].
  split; [assumption|]. split; [|split; [|split]].
  - destruct (fold_vadd (loan_cashflows 100 36 (fst draw1) (fst draw2))
                        (repeat 0 36)) as (H1 & _ & _).
    { rewrite repeat_length. apply loan_cashflows_width. }
    unfold portfolio_cashflow, sum_axis0. now rewrite H1, repeat_length.
  - exact Hentry.
  - exact Hcash.
  - apply pool_cash_exceeds_principal; [assumption | lia | lia].
Qed.

Lemma script_report_is_consistent_witness :
  let rep := fst (script Z lcg_seed lcg_sample irr_one_period 0%Z) in
  valid_pool 100 (drawn_loan_amounts rep) (drawn_interest_rates rep) /\
  length (report_portfolio_cashflow rep) = 36%nat /\
  report_total_principal rep < report_total_cash rep.
Proof.
  destruct (script_report_is_consistent Z lcg_seed lcg_sample irr_one_period
              0%Z lcg_sample_range) as (H1 & H2 & _ & _ & H5).
  split; [exact H1|]. split; [exact H2 | exact H5].
Defined.
